(** * sqlite-link-insert: a shallow embedding of the insert engine

    The development follows [src/sqlite-link-insert.js].  JavaScript values
    are a small inductive type, functions that may throw return [Res], and the
    asynchronous input handler is written in a state-and-exception monad whose
    state holds the handler's mutable locals and the log of every interaction
    with the outside world (database driver, typed-value resolver, warnings,
    output sink).

    Conventions of the model:
    - strings are sequences of 8-bit code units;
    - objects are modelled by their own enumerable properties, in enumeration
      order (an association list); property names that collide with members
      of [Object.prototype] are outside the model;
    - numbers are IEEE binary64 values ([spec_float]); reading a number from
      a string and printing a number are primitives of the language runtime
      and, with [JSON.stringify], are taken as operations of the class
      [Runtime]. *)

From Stdlib Require Import ZArith List String Ascii Bool Lia DecimalString.
From Corelib Require Import SpecFloat.
From stdpp Require Import base option gmap strings list.

Set Warnings "-register-all".

Local Open Scope string_scope.
Local Open Scope list_scope.

(** ** JavaScript values *)

Module Js.

Definition number := spec_float.

Definition one : number := S754_finite false 4503599627370496 (-52).
Definition zero : number := S754_zero false.

(** [Number.isFinite] on a number. *)
Definition isFinite (n : number) : bool :=
  match n with
  | S754_zero _ | S754_finite _ _ _ => true
  | S754_infinity _ | S754_nan => false
  end.

Inductive value : Type :=
| VUndefined
| VNull
| VBool (b : bool)
| VNum (n : number)
| VStr (s : string)
| VArr (items : list value)
| VObj (fields : list (string * value))
  (** an object without prototype ([Object.create(null)]): it has no
      [toString] and no [valueOf], so converting it to a primitive throws *)
| VBare (fields : list (string * value)).

Inductive exn : Type :=
| TypeError (msg : string)
| Error (msg : string)
  (** a rejection coming from a collaborator (driver, resolver, sink) *)
| External (msg : string).

Inductive Res (A : Type) : Type :=
| Ok (a : A)
| Throw (e : exn).
Arguments Ok {A} a.
Arguments Throw {A} e.

Definition rbind {A B} (r : Res A) (k : A -> Res B) : Res B :=
  match r with
  | Ok a => k a
  | Throw e => Throw e
  end.

Declare Scope res_scope.
Delimit Scope res_scope with res.
Notation "'let?' x ':=' r 'in' k" := (rbind r (fun x => k))
  (at level 10, x name, r at level 100, k at level 200) : res_scope.
Local Open Scope res_scope.

(** The primitives of the language runtime that the model does not spell out. *)
Class Runtime : Type := {
  (** [Number(s)] on a string *)
  StringToNumber : string -> number;
  (** [String(n)] on a number *)
  NumberToString : number -> string;
  (** [JSON.stringify(v)] on an object, an array or [null] *)
  JSONStringify : value -> string
}.

(** [v == null] *)
Definition nullish (v : value) : bool :=
  match v with
  | VUndefined | VNull => true
  | _ => false
  end.

(** [!!v] *)
Definition truthy (v : value) : bool :=
  match v with
  | VUndefined | VNull => false
  | VBool b => b
  | VNum n => match n with
              | S754_zero _ | S754_nan => false
              | _ => true
              end
  | VStr s => negb (String.eqb s "")
  | VArr _ | VObj _ | VBare _ => true
  end.

(** [typeof v === 'object'] *)
Definition typeof_object (v : value) : bool :=
  match v with
  | VNull | VArr _ | VObj _ | VBare _ => true
  | _ => false
  end.

Definition isArr (v : value) : bool :=
  match v with VArr _ => true | _ => false end.

(** [isObj]: [v && typeof v === 'object' && !Array.isArray(v)] *)
Definition isObj (v : value) : bool :=
  match v with VObj _ | VBare _ => true | _ => false end.

Section Conversions.
Context `{Runtime}.

(** [String(v)].  An array prints its elements separated by commas, with
    [null] and [undefined] printed as the empty string. *)
Fixpoint ToString (v : value) : Res string :=
  match v with
  | VUndefined => Ok "undefined"
  | VNull => Ok "null"
  | VBool true => Ok "true"
  | VBool false => Ok "false"
  | VNum n => Ok (NumberToString n)
  | VStr s => Ok s
  | VArr items =>
      (fix join (l : list value) : Res string :=
         match l with
         | [] => Ok ""
         | x :: rest =>
             let? sx := (if nullish x then Ok "" else ToString x) in
             match rest with
             | [] => Ok sx
             | _ => let? sr := join rest in Ok (sx +:+ "," +:+ sr)
             end
         end) items
  | VObj _ => Ok "[object Object]"
  | VBare _ => Throw (TypeError "Cannot convert object to primitive value")
  end.

(** [Number(v)] *)
Definition ToNumber (v : value) : Res number :=
  match v with
  | VUndefined => Ok S754_nan
  | VNull => Ok zero
  | VBool true => Ok one
  | VBool false => Ok zero
  | VNum n => Ok n
  | VStr s => Ok (StringToNumber s)
  | VArr _ | VObj _ | VBare _ =>
      let? s := ToString v in Ok (StringToNumber s)
  end.

End Conversions.

(** Own property lookup [o[k]]; the first binding of a name wins. *)
Fixpoint assoc (k : string) (fields : list (string * value)) : option value :=
  match fields with
  | [] => None
  | (k', v) :: rest => if String.eqb k k' then Some v else assoc k rest
  end.

(** [o[k]] on any value: [undefined] when [o] has no such own property. *)
Definition getProp (o : value) (k : string) : value :=
  match o with
  | VObj fields | VBare fields => default VUndefined (assoc k fields)
  | _ => VUndefined
  end.

(** [Object.keys(o)] for an object built by assigning the properties in
    list order. *)
Fixpoint keys (fields : list (string * value)) : list string :=
  match fields with
  | [] => []
  | (k, _) :: rest => k :: filter (fun k' => negb (String.eqb k k')) (keys rest)
  end.

End Js.

Import Js.
Local Open Scope res_scope.

(** ** String helpers: [trim], case mapping and the two regular expressions *)

Module Text.

(** White space and line terminators removed by [String.prototype.trim],
    among the 8-bit code units: TAB, LF, VT, FF, CR, SP and NBSP. *)
Definition is_space (c : ascii) : bool :=
  let n := nat_of_ascii c in
  (((9 <=? n) && (n <=? 13)) || (n =? 32) || (n =? 160))%nat.

Fixpoint trim_start (s : string) : string :=
  match s with
  | String c s' => if is_space c then trim_start s' else s
  | EmptyString => EmptyString
  end.

(** Drops the trailing white space: a character is kept when something
    that is not white space follows or it is not white space itself. *)
Fixpoint trim_end (s : string) : string :=
  match s with
  | EmptyString => EmptyString
  | String c s' =>
      match trim_end s' with
      | EmptyString => if is_space c then EmptyString else String c EmptyString
      | t => String c t
      end
  end.

Definition trim (s : string) : string := trim_end (trim_start s).

Definition upper_char (c : ascii) : ascii :=
  let n := nat_of_ascii c in
  if ((97 <=? n) && (n <=? 122))%nat then ascii_of_nat (n - 32) else c.

Definition lower_char (c : ascii) : ascii :=
  let n := nat_of_ascii c in
  if ((65 <=? n) && (n <=? 90))%nat then ascii_of_nat (n + 32) else c.

Fixpoint map_string (f : ascii -> ascii) (s : string) : string :=
  match s with
  | EmptyString => EmptyString
  | String c s' => String (f c) (map_string f s')
  end.

(** Case mapping is modelled on the ASCII letters; other code units are
    left as they are. *)
Definition toUpperCase : string -> string := map_string upper_char.
Definition toLowerCase : string -> string := map_string lower_char.

(** The regular expressions of the source are anchored at both ends, carry
    the [i] flag and are made of literal characters, some optional. *)
Inductive item : Type :=
| Lit (c : ascii)
| Opt (c : ascii).

(** Two code units match under the [i] flag when they have the same upper
    case form. *)
Definition ci_eqb (c d : ascii) : bool :=
  Ascii.eqb (upper_char c) (upper_char d).

(** [/^...$/i.test(s)] *)
Fixpoint test (re : list item) (s : string) : bool :=
  match re with
  | [] => match s with EmptyString => true | _ => false end
  | Lit c :: re' =>
      match s with
      | String d s' => ci_eqb c d && test re' s'
      | EmptyString => false
      end
  | Opt c :: re' =>
      match s with
      | String d s' => (ci_eqb c d && test re' s') || test re' s
      | EmptyString => test re' s
      end
  end.

(** [/^true$/i] *)
Definition re_true : list item := [Lit "t"; Lit "r"; Lit "u"; Lit "e"]%char.
(** [/^N\/?A$/i] *)
Definition re_na : list item := [Lit "N"; Opt "/"; Lit "A"]%char.

End Text.

(** ** Utilities: [chunkify], [qid] *)

Module Util.

(** [arr.slice(i, i+n)] *)
Definition slice {A} (arr : list A) (i n : nat) : list A :=
  firstn n (skipn i arr).

(** The loop of [chunkify]: [for (i; i < arr.length; i += n) out.push(arr.slice(i, i+n))].
    One unit of fuel is spent per iteration; [None] when it runs out. *)
Fixpoint chunkify_loop {A} (fuel : nat) (arr : list A) (n i : nat)
    (out : list (list A)) : option (list (list A)) :=
  if (i <? length arr)%nat then
    match fuel with
    | O => None
    | S fuel' => chunkify_loop fuel' arr n (i + n) (out ++ [slice arr i n])
    end
  else Some out.

(** [chunkify(arr, n)]; with [n >= 1] the loop runs at most
    [arr.length] times. *)
Definition chunkify {A} (arr : list A) (n : nat) : option (list (list A)) :=
  chunkify_loop (length arr) arr n 0 [].

(** The double quote character. *)
Definition quote_char : ascii := ascii_of_nat 34.

(** The [replace] of [qid]: every double quote is doubled. *)
Fixpoint double_quotes (s : string) : string :=
  match s with
  | EmptyString => EmptyString
  | String c s' =>
      if Ascii.eqb c quote_char
      then String c (String c (double_quotes s'))
      else String c (double_quotes s')
  end.

Definition dq : string := String quote_char EmptyString.

Section WithNumbers.
Context `{Runtime}.

(** The text of [`Invalid identifier: ${name}`]; the template converts the
    name with [String], which throws on its own for an object without
    prototype. *)
Definition invalid_identifier (name : value) : exn :=
  match ToString name with
  | Ok s => Error ("Invalid identifier: " +:+ s)
  | Throw e => e
  end.

(** [qid(name)] *)
Definition qid (name : value) : Res string :=
  match name with
  | VStr s =>
      if String.eqb s "" then Throw (invalid_identifier name)
      else Ok (dq +:+ double_quotes s +:+ dq)
  | _ => Throw (invalid_identifier name)
  end.

End WithNumbers.

(** [arr.join(sep)] on strings *)
Fixpoint join (sep : string) (l : list string) : string :=
  match l with
  | [] => ""
  | [x] => x
  | x :: rest => x +:+ sep +:+ join sep rest
  end.

(** [arr.map(f)] for an [f] that may throw: left to right, the first
    exception wins. *)
Fixpoint mapM {A B} (f : A -> Res B) (l : list A) : Res (list B) :=
  match l with
  | [] => Ok []
  | x :: rest =>
      let? y := f x in
      let? ys := mapM f rest in
      Ok (y :: ys)
  end.

End Util.

(** ** The transform registry *)

Module Transforms.
Import Text.

Section WithNumbers.
Context `{Runtime}.

Definition none (v : value) : Res value := Ok v.

Definition trim (v : value) : Res value :=
  if nullish v then Ok v
  else let? s := ToString v in Ok (VStr (Text.trim s)).

Definition upper (v : value) : Res value :=
  if nullish v then Ok v
  else let? s := ToString v in Ok (VStr (toUpperCase s)).

Definition lower (v : value) : Res value :=
  if nullish v then Ok v
  else let? s := ToString v in Ok (VStr (toLowerCase s)).

Definition nz (v : value) : Res value :=
  if nullish v then Ok VNull
  else
    let? s0 := ToString v in
    let s := Text.trim s0 in
    if String.eqb s "" || test re_na s then Ok VNull else Ok v.

(** [v === 1] *)
Definition is_one (v : value) : bool :=
  match v with
  | VNum n => SFeqb n one
  | _ => false
  end.

(** [v === '1'] *)
Definition is_str_one (v : value) : bool :=
  match v with
  | VStr s => String.eqb s "1"
  | _ => false
  end.

(** [v === true] *)
Definition is_true (v : value) : bool :=
  match v with
  | VBool true => true
  | _ => false
  end.

Definition bool01 (v : value) : Res value :=
  if is_true v || is_one v || is_str_one v then Ok (VNum one)
  else
    let? s := ToString v in
    if test re_true s then Ok (VNum one) else Ok (VNum zero).

Definition number (v : value) : Res value :=
  if nullish v then Ok VNull
  else
    let? s := ToString v in
    if String.eqb (Text.trim s) "" then Ok VNull
    else
      let? n := ToNumber v in
      if isFinite n then Ok (VNum n) else Ok VNull.

Definition string (v : value) : Res value :=
  if nullish v then Ok (VStr "")
  else let? s := ToString v in Ok (VStr s).

(** The own properties of the [transforms] table. *)
Definition transforms (name : String.string) : option (value -> Res value) :=
  if String.eqb name "none" then Some none
  else if String.eqb name "trim" then Some trim
  else if String.eqb name "upper" then Some upper
  else if String.eqb name "lower" then Some lower
  else if String.eqb name "nz" then Some nz
  else if String.eqb name "bool01" then Some bool01
  else if String.eqb name "number" then Some number
  else if String.eqb name "string" then Some string
  else None.

(** [transforms[name || 'none'] || transforms.none] *)
Definition transform_fn (name : String.string) : value -> Res value :=
  default none (transforms (if String.eqb name "" then "none" else name)).

(** [applyTransform(v, name)]: [try { return fn(v); } catch { return v; }] *)
Definition applyTransform (v : value) (name : String.string) : Res value :=
  match transform_fn name v with
  | Ok r => Ok r
  | Throw _ => Ok v
  end.

End WithNumbers.
End Transforms.

(** ** Configuration records *)

Module Config.

(** The [lookup] part of a mapping entry. *)
Record Lookup : Type := {
  fromGroup : string;
  strict : bool;
  valueType : string;
  value_ : value
}.

(** A mapping entry [m].  A missing string property is the empty string,
    which the source treats like [undefined] in every [x || default]. *)
Record MappingEntry : Type := {
  col : string;
  source_ : string;
  lookup : option Lookup;
  srcType : string;
  src : value;
  transform : string
}.

(** [group.keySpec] as configured. *)
Record KeySpecCfg : Type := {
  ks_enabled : bool;
  ks_alias : string;
  ks_mode : string;
  (** [ks.columns] when it is an array, the empty list otherwise *)
  ks_columns : list string;
  ks_template : string;
  ks_jsonata : string;
  ks_separator : string;
  ks_selectMissing : bool;
  ks_returnPath : string;
  ks_idColumn : string
}.

Record ReturnRows : Type := {
  rr_mode : string;
  rr_pathType : string;
  rr_path : string
}.

Record Group : Type := {
  table : string;
  alias : string;
  sourceType : string;
  source : value;
  autoMap : bool;
  mapping : list MappingEntry;
  conflict : string;
  (** [g.upsertKeys] and [g.updateColumns] when they are arrays, the empty
      list otherwise (the handler normalises them so) *)
  upsertKeys : list string;
  updateColumns : list string;
  keySpec : option KeySpecCfg;
  returnRows : option ReturnRows
}.

(** The run configuration [runCfg], and the node's database path. *)
Record RunConfig : Type := {
  txMode : string;
  (** an integer; [0] stands for a missing value as well *)
  chunkSize : Z;
  continueOnError : bool;
  enableWAL : bool;
  syncMode : string;
  extraPragmas : string;
  groups : list Group;
  dbPathType : string;
  dbPath : value
}.

(** The specification normalised by [normKeySpec]; it always has
    [enabled: true]. *)
Record KeySpec : Type := {
  spec_alias : string;
  spec_mode : string;
  spec_columns : list string;
  spec_template : string;
  spec_jsonata : string;
  spec_separator : string;
  spec_selectMissing : bool;
  spec_returnPath : string;
  spec_idColumn : string
}.

(** [x || d] on strings *)
Definition or_default (x d : string) : string :=
  if String.eqb x "" then d else x.

End Config.

(** ** The SQL builder *)

Module Sql.
Import Config Util.

Section WithNumbers.
Context `{Runtime}.

(** [keys.filter(Boolean)] on strings *)
Definition filter_truthy (l : list string) : list string :=
  filter (fun s => negb (String.eqb s "")) l.

Definition qids (names : list string) : Res (list string) :=
  mapM (fun c => qid (VStr c)) names.

(** [buildUpsert(table, keys, updateCols)] *)
Definition buildUpsert (keys updateCols : list string) : Res string :=
  let k := filter_truthy keys in
  match k with
  | [] => Ok ""
  | _ =>
      let? qk := qids k in
      let qKeys := join ", " qk in
      match updateCols with
      | [] => Ok (" ON CONFLICT (" +:+ qKeys +:+ ") DO NOTHING")
      | _ =>
          let? sets := mapM (fun c =>
                         let? a := qid (VStr c) in
                         let? b := qid (VStr c) in
                         Ok (a +:+ "=excluded." +:+ b)) updateCols in
          Ok (" ON CONFLICT (" +:+ qKeys +:+ ") DO UPDATE SET " +:+ join ", " sets)
      end
  end.

(** [buildInsertSQL(group, cols)] *)
Definition buildInsertSQL (group : Group) (cols : list string) : Res string :=
  let? tbl := qid (VStr (table group)) in
  let? qcols := qids cols in
  let colList := join ", " qcols in
  let params := join ", " (map (fun _ => "?") cols) in
  let head := "INSERT " in
  let head := if String.eqb (conflict group) "ignore" then head +:+ "OR IGNORE " else head in
  let head := if String.eqb (conflict group) "replace" then head +:+ "OR REPLACE " else head in
  let head := head +:+ "INTO " +:+ tbl +:+ " (" +:+ colList +:+ ") VALUES (" +:+ params +:+ ")" in
  if String.eqb (conflict group) "upsert" then
    let? tail := buildUpsert (upsertKeys group) (updateColumns group) in
    Ok (head +:+ tail)
  else Ok head.

End WithNumbers.
End Sql.

(** ** The KeySpec engine *)

Module Keys.
Import Config Util.

(** [normKeySpec(group)] *)
Definition normKeySpec (group : Group) : option KeySpec :=
  match keySpec group with
  | None => None
  | Some ks =>
      if negb (ks_enabled ks) then None
      else
        let columns0 := ks_columns ks in
        let columns :=
          match columns0, upsertKeys group with
          | [], _ :: _ =>
              if (String.eqb (ks_mode ks) "" || String.eqb (ks_mode ks) "byColumns")
                 && String.eqb (conflict group) "upsert"
              then upsertKeys group else columns0
          | _, _ => columns0
          end in
        Some {| spec_alias := or_default (ks_alias ks) (or_default (alias group) (table group));
                spec_mode := or_default (ks_mode ks) "byColumns";
                spec_columns := columns;
                spec_template := ks_template ks;
                spec_jsonata := ks_jsonata ks;
                spec_separator := or_default (ks_separator ks) "|";
                spec_selectMissing := ks_selectMissing ks;
                spec_returnPath := ks_returnPath ks;
                spec_idColumn := or_default (ks_idColumn ks) "id" |}
  end.

(** The longest prefix without a closing brace, and what follows it. *)
Fixpoint span_name (s : string) : string * string :=
  match s with
  | EmptyString => (EmptyString, EmptyString)
  | String c s' =>
      if Ascii.eqb c "}"%char then (EmptyString, s)
      else let (nm, rest) := span_name s' in (String c nm, rest)
  end.

(** A match of the placeholder pattern (two opening braces, one or more
    characters other than a closing brace, two closing braces) at the start
    of [s]: the captured name. *)
Definition match_placeholder (s : string) : option string :=
  match s with
  | String "{"%char (String "{"%char r) =>
      match span_name r with
      | (EmptyString, _) => None
      | (nm, String "}"%char (String "}"%char _)) => Some nm
      | _ => None
      end
  | _ => None
  end.

Section WithNumbers.
Context `{Runtime}.

(** [String(v ?? '')] *)
Definition str_or_empty (v : value) : Res string :=
  if nullish v then Ok "" else ToString v.

(** The [replace] of the template: [skip] counts the characters of a
    placeholder that are still to be passed over. *)
Fixpoint fill_template (mapped : value) (skip : nat) (s : string) : Res string :=
  match s with
  | EmptyString => Ok EmptyString
  | String c s' =>
      match skip with
      | S k => fill_template mapped k s'
      | O =>
          match match_placeholder s with
          | Some nm =>
              let? v := str_or_empty (getProp mapped (Text.trim nm)) in
              let? r := fill_template mapped (String.length nm + 3) s' in
              Ok (v +:+ r)
          | None =>
              let? r := fill_template mapped 0 s' in
              Ok (String c r)
          end
      end
  end.

(** [keyOfMappedRow(mapped, spec)] *)
Definition keyOfMappedRow (mapped : value) (spec : option KeySpec) : Res string :=
  match spec with
  | None => Ok ""
  | Some spec =>
      let S := or_default (spec_separator spec) "|" in
      if String.eqb (spec_mode spec) "byColumns" && negb (Nat.eqb (length (spec_columns spec)) 0)
      then
        let? parts := mapM (fun c => str_or_empty (getProp mapped c)) (spec_columns spec) in
        Ok (join S parts)
      else if String.eqb (spec_mode spec) "byTemplate" && negb (String.eqb (spec_template spec) "")
      then fill_template mapped 0 (spec_template spec)
      else Ok ""
  end.

(** The text of [buildKeyConcatExpr]'s [replace]: single quotes doubled. *)
Fixpoint double_single_quotes (s : string) : string :=
  match s with
  | EmptyString => EmptyString
  | String c s' =>
      if Ascii.eqb c "'"%char
      then String c (String c (double_single_quotes s'))
      else String c (double_single_quotes s')
  end.

(** [buildKeyConcatExpr(spec)] *)
Definition buildKeyConcatExpr (spec : KeySpec) : Res string :=
  let S := double_single_quotes (or_default (spec_separator spec) "|") in
  let? parts := mapM (fun c => let? q := qid (VStr c) in Ok ("COALESCE(" +:+ q +:+ ",'')"))
                     (spec_columns spec) in
  Ok (join (" || '" +:+ S +:+ "' || ") parts).

(** [composeKeyWithSpec(spec, provided, sep)]; [sep] is the empty string
    when the caller has none. *)
Definition composeKeyWithSpec (spec : option KeySpec) (provided : value) (sep : string)
  : Res string :=
  let S := or_default sep (or_default (from_option spec_separator "" spec) "|") in
  match spec with
  | None => str_or_empty provided
  | Some sp =>
      if String.eqb (spec_mode sp) "" then str_or_empty provided
      else
        match provided with
        | VStr _ | VNum _ => ToString provided
        | _ =>
            if String.eqb (spec_mode sp) "byColumns" then
              match provided with
              | VArr items =>
                  let? parts := mapM str_or_empty items in Ok (join S parts)
              | VObj _ | VBare _ =>
                  let? parts := mapM (fun c => str_or_empty (getProp provided c))
                                     (spec_columns sp) in
                  Ok (join S parts)
              | _ => str_or_empty provided
              end
            else str_or_empty provided
        end
  end.

End WithNumbers.
End Keys.

(** ** The world: events, state and the handler's monad *)

Module World.
Import Config.

(** A published context map [ctxMaps[alias] = { map }].  The field
    [publisher] is specification state: the index, in the declared group
    list, of the group whose processing stored the entry. *)
Record Ctx : Type := {
  ctx_map : gmap string value;
  publisher : nat
}.

(** Interactions with the collaborators, and two markers that only record
    what the handler is doing. *)
Inductive event : Type :=
  (** [typedGet] reading from the environment, a message, a context store or
      an expression *)
| EvResolve (type : string) (selector : value) (rowCtx : option value)
| EvWarn (msg : string)
| EvOpen (path : string)
  (** [db.run(sql)] *)
| EvRun (sql : string)
| EvPrepare (sql : string)
| EvStmtRun (params : list value)
| EvFinalize
  (** [db.all(sql, params)] *)
| EvAll (sql : string) (params : list string)
| EvClose
  (** [assignTypedPath] writing to the output sink *)
| EvAssign (type path : string) (v : value)
  (** marker: [mapRow] is called for row [i] of group [gi] with these
      context maps *)
| EvMapRow (gi i : nat) (maps : gmap string Ctx)
  (** marker: the mapping of row [i] of group [gi] threw *)
| EvMapFailed (gi i : nat) (e : exn).

Record counters : Type := {
  inserted : nat;
  updated : nat;
  errors : nat;
  skipped : nat
}.

(** An entry of [byTable]. *)
Record tableCounters : Type := {
  t_inserted : nat;
  t_updated : nat;
  t_errors : nat;
  t_skipped : nat;
  t_total : nat
}.

(** The mutable locals of one invocation of the input handler, and the log
    of its interactions, most recent first, each with its outcome. *)
Record state : Type := {
  log : list (event * Res value);
  totals : counters;
  byTable : gmap string tableCounters;
  ctxMaps : gmap string Ctx;
  keySpecs : gmap string KeySpec
}.

Definition init : state :=
  {| log := [];
     totals := {| inserted := 0; updated := 0; errors := 0; skipped := 0 |};
     byTable := ∅; ctxMaps := ∅; keySpecs := ∅ |}.

(** A computation of the handler: it may throw, and the state survives the
    exception. *)
Definition M (A : Type) : Type := state -> Res A * state.

Definition ret {A} (a : A) : M A := fun st => (Ok a, st).
Definition throw {A} (e : exn) : M A := fun st => (Throw e, st).

Definition bind {A B} (m : M A) (k : A -> M B) : M B :=
  fun st =>
    match m st with
    | (Ok a, st') => k a st'
    | (Throw e, st') => (Throw e, st')
    end.

(** [try { m } catch (e) { h e }] *)
Definition try_catch {A} (m : M A) (h : exn -> M A) : M A :=
  fun st =>
    match m st with
    | (Ok a, st') => (Ok a, st')
    | (Throw e, st') => h e st'
    end.

Definition lift {A} (r : Res A) : M A := fun st => (r, st).
Definition gets {A} (f : state -> A) : M A := fun st => (Ok (f st), st).
Definition modify (f : state -> state) : M unit := fun st => (Ok tt, f st).

Definition push (ev : event) (r : Res value) (st : state) : state :=
  {| log := (ev, r) :: log st; totals := totals st; byTable := byTable st;
     ctxMaps := ctxMaps st; keySpecs := keySpecs st |}.

(** A marker or a warning: logged, never fails. *)
Definition note (ev : event) : M unit :=
  fun st => (Ok tt, push ev (Ok VUndefined) st).

Declare Scope m_scope.
Delimit Scope m_scope with M.
Notation "'let!' x ':=' m 'in' k" := (bind m (fun x => k))
  (at level 10, x name, m at level 100, k at level 200) : m_scope.
Notation "'do!' m 'in' k" := (bind m (fun _ => k))
  (at level 10, m at level 100, k at level 200) : m_scope.

(** [for (const x of l) body(x)] *)
Fixpoint for_each {A} (l : list A) (body : A -> M unit) : M unit :=
  match l with
  | [] => ret tt
  | x :: rest => bind (body x) (fun _ => for_each rest body)
  end.

(** [for (let i = i0; ...; i++) body(i, l[i])] *)
Fixpoint for_index {A} (i0 : nat) (l : list A) (body : nat -> A -> M unit) : M unit :=
  match l with
  | [] => ret tt
  | x :: rest => bind (body i0 x) (fun _ => for_index (S i0) rest body)
  end.

(** [e.message] *)
Definition message (e : exn) : string :=
  match e with
  | TypeError m | Error m | External m => m
  end.

End World.

(** ** Row mapping and lookups *)

Module Mapper.
Import Config Util World Keys.
Local Open Scope m_scope.

Section WithWorld.
Context `{Runtime}.
(** The collaborators: the outcome of a request, given all that happened
    before it. *)
Variable world : list (event * Res value) -> event -> Res value.

(** A request to a collaborator. *)
Definition call (ev : event) : M value :=
  fun st => let r := world (log st) ev in (r, push ev r st).

(** [typedGet(RED, node, msg, type, value, rowCtx)] *)
Definition typedGet (type : string) (v : value) (rowCtx : option value) : M value :=
  if String.eqb type "num" then lift (let? n := ToNumber v in Ok (VNum n))
  else if String.eqb type "bool" then ret (VBool (truthy v))
  else if String.eqb type "json" then
    try_catch (call (EvResolve type v rowCtx)) (fun _ => ret VUndefined)
  else if String.eqb type "env" then
    do! lift (ToString v) in
    let! r := call (EvResolve type v rowCtx) in
    ret (if truthy r then r else VStr "")
  else if String.eqb type "msg" || String.eqb type "flow" || String.eqb type "global" then
    do! lift (ToString v) in
    call (EvResolve type v rowCtx)
  else if String.eqb type "jsonata" then
    try_catch (do! lift (ToString v) in call (EvResolve type v rowCtx))
              (fun e => do! note (EvWarn ("jsonata error: " +:+ message e)) in ret VUndefined)
  else ret v.

(** [resolveLookupId(node, fromAlias, ctxMaps, keySpecs, provided, _childRow)] *)
Definition resolveLookupId (fromAlias : string) (maps : gmap string Ctx)
    (specs : gmap string KeySpec) (provided : value) : M value :=
  let spec := specs !! fromAlias in
  match maps !! fromAlias with
  | None =>
      do! note (EvWarn ("lookup map missing for " +:+ dq +:+ fromAlias +:+ dq)) in
      ret VNull
  | Some ctx =>
      let! key := lift (composeKeyWithSpec spec provided (from_option spec_separator "" spec)) in
      ret (match ctx_map ctx !! key with
           | Some id => if nullish id then VNull else id
           | None => VNull
           end)
  end.

(** [out[col] = v] on the fields of an object: an existing property keeps
    its place, a new one goes last. *)
Fixpoint setProp (fields : list (string * value)) (k : string) (v : value)
  : list (string * value) :=
  match fields with
  | [] => [(k, v)]
  | (k', v') :: rest =>
      if String.eqb k k' then (k, v) :: rest else (k', v') :: setProp rest k v
  end.

(** The text shown for the key of a failed lookup. *)
Definition keyShow (val : value) : Res string :=
  if typeof_object val then Ok (JSONStringify val) else ToString val.

(** One mapping entry of [mapRow]: the fields of [out] after it. *)
Definition mapEntry (maps : gmap string Ctx) (specs : gmap string KeySpec)
    (srcRow : value) (out : list (string * value)) (m : MappingEntry)
  : M (list (string * value)) :=
  if String.eqb (col m) "" then ret out
  else if String.eqb (source_ m) "lookup" then
    let fromGroup := from_option Config.fromGroup "" (lookup m) in
    let strict := from_option Config.strict false (lookup m) in
    let! val := typedGet (or_default (from_option valueType "" (lookup m)) "str")
                         (from_option value_ VUndefined (lookup m)) (Some srcRow) in
    let! id := resolveLookupId fromGroup maps specs val in
    if nullish id && strict then
      let! shown := lift (keyShow val) in
      throw (Error ("lookup failed for group " +:+ dq +:+ fromGroup +:+ dq +:+ " key=" +:+ shown))
    else ret (setProp out (col m) (if nullish id then VNull else id))
  else
    let! raw := typedGet (or_default (srcType m) "str") (src m) (Some srcRow) in
    let! v := lift (Transforms.applyTransform raw (or_default (transform m) "none")) in
    ret (setProp out (col m) v).

Fixpoint mapEntries (maps : gmap string Ctx) (specs : gmap string KeySpec)
    (srcRow : value) (out : list (string * value)) (ms : list MappingEntry)
  : M (list (string * value)) :=
  match ms with
  | [] => ret out
  | m :: rest =>
      let! out' := mapEntry maps specs srcRow out m in
      mapEntries maps specs srcRow out' rest
  end.

(** [mapRow(RED, node, msg, group, srcRow)], where [group] carries
    [_ctxMaps] and [_keySpecs]. *)
Definition mapRow (group : Group) (maps : gmap string Ctx) (specs : gmap string KeySpec)
    (srcRow : value) : M value :=
  if autoMap group then
    match srcRow with
    | VObj fields | VBare fields =>
        ret (VObj (map (fun k => (k, getProp srcRow k)) (keys fields)))
    | _ => ret (VObj [])
    end
  else
    let! out := mapEntries maps specs srcRow [] (mapping group) in
    ret (VObj out).

End WithWorld.
End Mapper.

(** ** The batch executor, the key-map builder and the run orchestrator *)

Module Handler.
Import Config Util World Keys Sql Mapper.
Local Open Scope m_scope.

(** [msg.sqlite]: the summary of a run (timings are left out). *)
Record Summary : Type := {
  ok : bool;
  counts : counters;
  tables : gmap string tableCounters
}.

(** [uniq(arr)]: the first occurrence of each key, in order. *)
Fixpoint uniq (l : list string) : list string :=
  match l with
  | [] => []
  | x :: rest => x :: filter (fun y => negb (String.eqb x y)) (uniq rest)
  end.

(** [s.split(sep)] for a one-character separator. *)
Fixpoint split_on (sep : ascii) (s : string) : list string :=
  match s with
  | EmptyString => [EmptyString]
  | String c s' =>
      if Ascii.eqb c sep then EmptyString :: split_on sep s'
      else match split_on sep s' with
           | [] => [String c EmptyString]
           | x :: rest => String c x :: rest
           end
  end.

Definition zeroTable : tableCounters :=
  {| t_inserted := 0; t_updated := 0; t_errors := 0; t_skipped := 0; t_total := 0 |}.

Definition set_totals (f : counters -> counters) (st : state) : state :=
  {| log := log st; totals := f (totals st); byTable := byTable st;
     ctxMaps := ctxMaps st; keySpecs := keySpecs st |}.

Definition set_byTable (f : gmap string tableCounters -> gmap string tableCounters)
    (st : state) : state :=
  {| log := log st; totals := totals st; byTable := f (byTable st);
     ctxMaps := ctxMaps st; keySpecs := keySpecs st |}.

Definition set_ctxMaps (f : gmap string Ctx -> gmap string Ctx) (st : state) : state :=
  {| log := log st; totals := totals st; byTable := byTable st;
     ctxMaps := f (ctxMaps st); keySpecs := keySpecs st |}.

Definition set_keySpecs (f : gmap string KeySpec -> gmap string KeySpec) (st : state) : state :=
  {| log := log st; totals := totals st; byTable := byTable st;
     ctxMaps := ctxMaps st; keySpecs := f (keySpecs st) |}.

(** The state after [per.errors++; totals.errors++]. *)
Definition bump_errors (tableName : string) (st : state) : state :=
  set_totals (fun t => {| inserted := inserted t; updated := updated t;
                          errors := S (errors t); skipped := skipped t |})
    (set_byTable (alter (fun p => {| t_inserted := t_inserted p; t_updated := t_updated p;
                                     t_errors := S (t_errors p); t_skipped := t_skipped p;
                                     t_total := t_total p |}) tableName) st).

(** [per.errors++; totals.errors++] *)
Definition count_error (tableName : string) : M unit :=
  modify (bump_errors tableName).

(** [per.updated++; totals.updated++] *)
Definition count_updated (tableName : string) : M unit :=
  modify (fun st =>
    set_totals (fun t => {| inserted := inserted t; updated := S (updated t);
                            errors := errors t; skipped := skipped t |})
      (set_byTable (alter (fun p => {| t_inserted := t_inserted p; t_updated := S (t_updated p);
                                       t_errors := t_errors p; t_skipped := t_skipped p;
                                       t_total := t_total p |}) tableName) st)).

(** [per.inserted++; totals.inserted++] *)
Definition count_inserted (tableName : string) : M unit :=
  modify (fun st =>
    set_totals (fun t => {| inserted := S (inserted t); updated := updated t;
                            errors := errors t; skipped := skipped t |})
      (set_byTable (alter (fun p => {| t_inserted := S (t_inserted p); t_updated := t_updated p;
                                       t_errors := t_errors p; t_skipped := t_skipped p;
                                       t_total := t_total p |}) tableName) st)).

(** [byTable[tableName] = byTable[tableName] || {zeros}; per.total += n] *)
Definition count_total (tableName : string) (n : nat) : M unit :=
  modify (set_byTable (fun bt =>
    let p := default zeroTable (bt !! tableName) in
    <[tableName := {| t_inserted := t_inserted p; t_updated := t_updated p;
                      t_errors := t_errors p; t_skipped := t_skipped p;
                      t_total := t_total p + n |}]> bt)).

(** The state after [ctxMaps[alias] = { map }], in the processing of the
    group at index [gi]. *)
Definition publish (gi : nat) (alias : string) (map : gmap string value) (st : state) : state :=
  set_ctxMaps (insert alias {| ctx_map := map; publisher := gi |}) st.

(** The effective settings [local] of a run. *)
Definition localTxMode (cfg : RunConfig) : string := or_default (txMode cfg) "perTable".
Definition localChunkSize (cfg : RunConfig) : Z :=
  if (chunkSize cfg =? 0)%Z then 500%Z else chunkSize cfg.

(** A loop that runs out of fuel is reported as a failure of its own; it
    does not arise for a chunk size of at least one. *)
Definition chunks_or_hang {A} (r : option (list (list A))) : M (list (list A)) :=
  match r with
  | Some cs => ret cs
  | None => throw (Error "chunkify does not terminate")
  end.

(** The chunks of a group's mapped rows:
    [txMode === 'chunk' ? chunkify(mapped, Math.max(1, chunkSize)) : [mapped]]. *)
Definition chunksOf {A} (txMode : string) (chunkSize : Z) (mapped : list A)
  : option (list (list A)) :=
  if String.eqb txMode "chunk"
  then chunkify mapped (Z.to_nat (Z.max 1 chunkSize))
  else Some [mapped].

Section WithWorld.
Context `{Runtime}.
Variable world : list (event * Res value) -> event -> Res value.

Abbreviation call := (call world).
Abbreviation typedGet := (typedGet world).

Definition beginTx (mode : string) : M unit :=
  if String.eqb mode "off" then ret tt else do! call (EvRun "BEGIN") in ret tt.

Definition commitTx (mode : string) : M unit :=
  if String.eqb mode "off" then ret tt else do! call (EvRun "COMMIT") in ret tt.

Definition rollbackTx (mode : string) : M unit :=
  if String.eqb mode "off" then ret tt
  else try_catch (do! call (EvRun "ROLLBACK") in ret tt) (fun _ => ret tt).

(** [assignTypedPath(RED, node, msg, type, path, value)] *)
Definition assignTypedPath (type path : string) (v : value) : M unit :=
  if String.eqb path "" then ret tt
  else do! call (EvAssign type path v) in ret tt.

(** The rows of one [dbAll] answer stored into [out]:
    [out.set(String(r._k), r.id)]. *)
Fixpoint store_rows (rows : list value) (out : gmap string value) : Res (gmap string value) :=
  match rows with
  | [] => Ok out
  | r :: rest =>
      if nullish r then Throw (TypeError "Cannot read properties of null")
      else
        let? k := ToString (getProp r "_k") in
        store_rows rest (<[k := getProp r "id"]> out)
  end.

Fixpoint select_chunks (idCol expr tbl : string) (chunks : list (list string))
    (out : gmap string value) : M (gmap string value) :=
  match chunks with
  | [] => ret out
  | ch :: rest =>
      let placeholders := join ", " (map (fun _ => "?") ch) in
      let sql := "SELECT " +:+ idCol +:+ " AS id, (" +:+ expr +:+ ") AS _k FROM " +:+ tbl
                 +:+ " WHERE (" +:+ expr +:+ ") IN (" +:+ placeholders +:+ ")" in
      let! rows := call (EvAll sql ch) in
      let! out' := lift (store_rows (match rows with VArr items => items | _ => [] end) out) in
      select_chunks idCol expr tbl rest out'
  end.

(** [selectIdsByKeys(db, group, spec, keys)] *)
Definition selectIdsByKeys (group : Group) (spec : KeySpec) (keys : list string)
  : M (gmap string value) :=
  match keys with
  | [] => ret ∅
  | _ =>
      if negb (String.eqb (spec_mode spec) "byColumns")
         || Nat.eqb (length (spec_columns spec)) 0
      then ret ∅
      else
        let! idCol := lift (qid (VStr (or_default (spec_idColumn spec) "id"))) in
        let! expr := lift (buildKeyConcatExpr spec) in
        let! tbl := lift (qid (VStr (table group))) in
        let! chunks := chunks_or_hang (chunkify (uniq keys) 500) in
        select_chunks idCol expr tbl chunks ∅
  end.

(** The body of the mapping loop for row [i] of group [gi]. *)
Definition mapOne (cfg : RunConfig) (gi : nat) (g : Group) (i : nat) (row : value)
    (mapped : list value) : M (list value) :=
  try_catch
    (let! maps := gets ctxMaps in
     let! specs := gets keySpecs in
     do! note (EvMapRow gi i maps) in
     let! m := mapRow world g maps specs row in
     ret (mapped ++ [m]))
    (fun e =>
       do! note (EvMapFailed gi i e) in
       do! count_error (table g) in
       if continueOnError cfg then ret mapped else throw e).

(** The mapping loop: [for (let i = 0; i < rowsIn.length; i++) ...]. *)
Fixpoint mapRows (cfg : RunConfig) (gi : nat) (g : Group) (i : nat) (rowsIn : list value)
    (mapped : list value) : M (list value) :=
  match rowsIn with
  | [] => ret mapped
  | row :: rest =>
      let! mapped' := mapOne cfg gi g i row mapped in
      mapRows cfg gi g (S i) rest mapped'
  end.

(** One row of a chunk: [stmt.run(params)] and the counters. *)
Definition execRow (cfg : RunConfig) (g : Group) (cols : list string) (r : value) : M unit :=
  let params := map (fun c => match getProp r c with
                              | VUndefined => VNull
                              | v => v
                              end) cols in
  try_catch
    (do! call (EvStmtRun params) in
     if String.eqb (conflict g) "replace" then count_updated (table g)
     else if String.eqb (conflict g) "upsert" then count_updated (table g)
     else count_inserted (table g))
    (fun e =>
       do! count_error (table g) in
       if continueOnError cfg then ret tt else throw e).

(** One chunk: the body of [for (const ch of chunks)]. *)
Definition execChunk (cfg : RunConfig) (txMode : string) (g : Group) (cols : list string)
    (ch : list value) : M unit :=
  do! beginTx txMode in
  try_catch
    (let! sql := lift (buildInsertSQL g cols) in
     do! call (EvPrepare sql) in
     do! for_each ch (execRow cfg g cols) in
     do! call EvFinalize in
     commitTx txMode)
    (fun e =>
       do! rollbackTx txMode in
       if continueOnError cfg then ret tt else throw e).

Definition byColumnsWithColumns (ks : KeySpec) : bool :=
  String.eqb (spec_mode ks) "byColumns" && negb (Nat.eqb (length (spec_columns ks)) 0).

(** The text of the warning of the key-map builder. *)
Definition warn_not_byColumns (alias : string) : string :=
  "KeySpec for " +:+ dq +:+ alias +:+ dq +:+ " is not byColumns — skipping SELECT map build".

(** The key-map builder: the block [if (ks && ks.enabled) { ... }] after the
    chunks of group [gi]. *)
Definition buildKeyMap (gi : nat) (g : Group) (alias : string) (ks : option KeySpec)
    (mapped : list value) : M unit :=
  match ks with
  | None => ret tt
  | Some ks =>
      let! keys :=
        (if byColumnsWithColumns ks
         then lift (mapM (fun r => keyOfMappedRow r (Some ks)) mapped)
         else if String.eqb (spec_mode ks) "byTemplate"
                 && negb (String.eqb (spec_template ks) "")
         then lift (mapM (fun r => keyOfMappedRow r (Some ks)) mapped)
         else ret []) in
      let! map :=
        (if byColumnsWithColumns ks then selectIdsByKeys g ks keys
         else do! note (EvWarn (warn_not_byColumns alias)) in ret ∅) in
      do! modify (publish gi alias map) in
      if String.eqb (spec_returnPath ks) "" then ret tt
      else assignTypedPath "flow" (spec_returnPath ks) (VObj (map_to_list map))
  end.

(** The return-rows projector: the block on [g.returnRows]. *)
Definition projectRows (g : Group) (alias : string) (mapped : list value) : M unit :=
  let mode := from_option rr_mode "none" (returnRows g) in
  if String.eqb mode "" || String.eqb mode "none" then ret tt
  else
    let! ks2 := gets (fun st => keySpecs st !! alias) in
    match ks2 with
    | Some ks2 =>
        if byColumnsWithColumns ks2 then
          let! keys := lift (mapM (fun r => keyOfMappedRow r (Some ks2)) mapped) in
          let! map := selectIdsByKeys g ks2 keys in
          let! outRows := lift (mapM (fun r =>
                            let? k := keyOfMappedRow r (Some ks2) in
                            Ok (VObj [("action", VStr "affected");
                                      ("id", default VUndefined (map !! k));
                                      ("data", r)])) mapped) in
          assignTypedPath (or_default (from_option rr_pathType "" (returnRows g)) "msg")
                          (or_default (from_option rr_path "" (returnRows g))
                                      ("sqlite." +:+ alias +:+ ".rows"))
                          (VArr outRows)
        else note (EvWarn ("returnRows requires a byColumns KeySpec for group " +:+ dq
                           +:+ alias +:+ dq +:+ " — skipped"))
    | None => note (EvWarn ("returnRows requires a byColumns KeySpec for group " +:+ dq
                            +:+ alias +:+ dq +:+ " — skipped"))
    end.

(** The group with the defaults the handler writes back into it:
    [g.conflict = g.conflict || 'none']. *)
Definition normGroup (g : Group) : Group :=
  {| table := table g; alias := alias g; sourceType := sourceType g; source := source g;
     autoMap := autoMap g; mapping := mapping g;
     conflict := or_default (conflict g) "none";
     upsertKeys := upsertKeys g; updateColumns := updateColumns g;
     keySpec := keySpec g; returnRows := returnRows g |}.

(** The body of the loop over the groups, for the group at index [gi]. *)
Definition processGroup (cfg : RunConfig) (gi : nat) (g0 : Group) : M unit :=
  if String.eqb (table g0) "" then ret tt
  else
    let g := normGroup g0 in
    let tableName := table g in
    let alias := or_default (Config.alias g) (table g) in
    let! sourceArr := typedGet (or_default (sourceType g) "msg") (source g) (Some VNull) in
    let rowsIn := match sourceArr with VArr items => items | _ => [] end in
    do! count_total tableName (length rowsIn) in
    let ks := normKeySpec g in
    do! (match ks with
         | Some k => modify (set_keySpecs (insert alias k))
         | None => ret tt
         end) in
    let! mapped := mapRows cfg gi g 0 rowsIn [] in
    match mapped with
    | [] =>
        match ks with
        | Some k =>
            if spec_selectMissing k
            then modify (publish gi alias ∅)
            else ret tt
        | None => ret tt
        end
    | first :: _ =>
        let cols := if autoMap g
                    then match first with
                         | VObj fields | VBare fields => keys fields
                         | _ => []
                         end
                    else filter_truthy (map col (mapping g)) in
        match cols with
        | [] => note (EvWarn ("Group " +:+ dq +:+ alias +:+ dq +:+ " has no columns"))
        | _ =>
            let txMode := if String.eqb (localTxMode cfg) "all" then "off"
                          else localTxMode cfg in
            let! chunks := chunks_or_hang (chunksOf (localTxMode cfg) (localChunkSize cfg) mapped) in
            do! for_each chunks (execChunk cfg txMode g cols) in
            do! buildKeyMap gi g alias ks mapped in
            projectRows g alias mapped
        end
    end.

(** The PRAGMA block. *)
Definition pragmas (cfg : RunConfig) : M unit :=
  try_catch
    (do! (if enableWAL cfg then do! call (EvRun "PRAGMA journal_mode=WAL;") in ret tt
          else ret tt) in
     do! (if String.eqb (syncMode cfg) "" then ret tt
          else do! call (EvRun ("PRAGMA synchronous=" +:+ syncMode cfg +:+ ";")) in ret tt) in
     if String.eqb (Text.trim (extraPragmas cfg)) "" then ret tt
     else for_each (split_on ";"%char (extraPragmas cfg))
            (fun stmt =>
               let s := Text.trim stmt in
               if String.eqb s "" then ret tt
               else do! call (EvRun ("PRAGMA " +:+ s +:+ ";")) in ret tt))
    (fun e => note (EvWarn ("PRAGMA warning: " +:+ message e))).

(** The input handler, from the effective configuration on.  [Ok summary]
    is [send(msg); done()], [Throw err] is [done(err)]. *)
Definition handler (cfg : RunConfig) : M Summary :=
  let! dbPath := typedGet (or_default (dbPathType cfg) "str") (dbPath cfg) (Some VNull) in
  match dbPath with
  | VStr p =>
      if String.eqb p "" then throw (Error "Invalid database path")
      else
        do! note (EvOpen p) in
        do! pragmas cfg in
        do! (if String.eqb (localTxMode cfg) "all" then beginTx "all" else ret tt) in
        do! for_index 0 (groups cfg) (processGroup cfg) in
        do! note EvClose in
        let! st := gets (fun st => st) in
        ret {| ok := Nat.eqb (errors (totals st)) 0;
               counts := totals st;
               tables := byTable st |}
  | _ => throw (Error "Invalid database path")
  end.

(** A run from the initial state. *)
Definition run (cfg : RunConfig) : Res Summary * state := handler cfg init.

End WithWorld.
End Handler.

(** ** A runtime and a world for running examples

    The theorems below hold for every runtime and every world.  To run the
    definitions on concrete inputs, this module fixes a runtime that reads
    and prints the integers (other numbers are outside its range), and a
    world where every request succeeds. *)

Module Sample.
Import Config World.

Definition digit_of (c : ascii) : option N :=
  let n := N_of_ascii c in
  if ((48 <=? n) && (n <=? 57))%N then Some (n - 48)%N else None.

Fixpoint read_digits (acc : N) (s : string) : option N :=
  match s with
  | EmptyString => Some acc
  | String c s' =>
      match digit_of c with
      | Some d => read_digits (acc * 10 + d)%N s'
      | None => None
      end
  end.

Definition of_Z (z : Z) : number := binary_normalize 53 1024 z 0 false.

Definition read_number (s : string) : number :=
  match Text.trim s with
  | EmptyString => zero
  | String "-"%char (String c r) =>
      match read_digits 0 (String c r) with
      | Some n => if (n =? 0)%N then S754_zero true else of_Z (- Z.of_N n)
      | None => S754_nan
      end
  | t => match read_digits 0 t with
         | Some n => of_Z (Z.of_N n)
         | None => S754_nan
         end
  end.

Definition print_N (n : N) : string := NilZero.string_of_uint (N.to_uint n).

Definition print_number (n : number) : string :=
  match n with
  | S754_nan => "NaN"
  | S754_infinity false => "Infinity"
  | S754_infinity true => "-Infinity"
  | S754_zero _ => "0"
  | S754_finite s m e =>
      let mag := match e with
                 | Zneg p => (Npos m / 2 ^ Npos p)%N
                 | _ => (Npos m * 2 ^ Z.to_N e)%N
                 end in
      (if s then "-" else "") +:+ print_N mag
  end.

(** [JSON.stringify] without the escapes of strings. *)
Fixpoint stringify (v : value) : string :=
  match v with
  | VUndefined | VNull => "null"
  | VBool true => "true"
  | VBool false => "false"
  | VNum n => if isFinite n then print_number n else "null"
  | VStr s => Util.dq +:+ s +:+ Util.dq
  | VArr items => "[" +:+ Util.join "," (map stringify items) +:+ "]"
  | VObj fields | VBare fields =>
      "{" +:+ Util.join ","
        ((fix props (l : list (string * value)) : list string :=
            match l with
            | [] => []
            | (k, VUndefined) :: rest => props rest
            | (k, x) :: rest => (Util.dq +:+ k +:+ Util.dq +:+ ":" +:+ stringify x) :: props rest
            end) fields) +:+ "}"
  end.

#[export] Instance runtime : Runtime :=
  {| StringToNumber := read_number;
     NumberToString := print_number;
     JSONStringify := stringify |}.

(** A message: [msg.departments] and [msg.employees]. *)
Definition departments : value :=
  VArr [VObj [("code", VStr "HR")]; VObj [("code", VStr "ENG")]].
Definition employees : value :=
  VArr [VObj [("ext_id", VStr "U001"); ("dept_code", VStr "ENG")]].
Definition msg : value :=
  VObj [("departments", departments); ("employees", employees);
        ("odd", VArr [VObj [("", VStr "x")]]);
        ("mixed", VArr [VObj [("code", VStr "A")]; VObj [("code", VNull)]])].

(** Every request succeeds: a property of the message or of the row is
    read by its name, and a [SELECT] answers each key [k] with the row
    [{ _k: k, id: "#" + k }]. *)
Definition world (_ : list (event * Res value)) (ev : event) : Res value :=
  match ev with
  | EvResolve type (VStr sel) rowCtx =>
      if String.eqb type "msg" then Ok (getProp msg sel)
      else if String.eqb type "jsonata" then Ok (getProp (default VUndefined rowCtx) sel)
      else Ok VUndefined
  | EvAll _ params =>
      Ok (VArr (map (fun k => VObj [("_k", VStr k); ("id", VStr ("#" +:+ k))]) params))
  | _ => Ok VUndefined
  end.

(** The same world with a statement that fails on the rows whose first
    parameter is [null]. *)
Definition world_reject_null (h : list (event * Res value)) (ev : event) : Res value :=
  match ev with
  | EvStmtRun (VNull :: _) => Throw (External "SQLITE_CONSTRAINT: NOT NULL constraint failed")
  | _ => world h ev
  end.

Definition noKeySpec : KeySpecCfg :=
  {| ks_enabled := false; ks_alias := ""; ks_mode := "byColumns"; ks_columns := [];
     ks_template := ""; ks_jsonata := ""; ks_separator := "|"; ks_selectMissing := false;
     ks_returnPath := ""; ks_idColumn := "id" |}.

Definition keyOn (mode : string) (columns : list string) (template : string) : KeySpecCfg :=
  {| ks_enabled := true; ks_alias := ""; ks_mode := mode; ks_columns := columns;
     ks_template := template; ks_jsonata := ""; ks_separator := "|"; ks_selectMissing := false;
     ks_returnPath := ""; ks_idColumn := "id" |}.

(** A group that copies the rows of [msg[source]] into [table]. *)
Definition autoGroup (table source conflict : string) (upsertKeys updateColumns : list string)
    (ks : option KeySpecCfg) : Group :=
  {| Config.table := table; alias := ""; sourceType := "msg"; Config.source := VStr source;
     autoMap := true; mapping := []; Config.conflict := conflict;
     Config.upsertKeys := upsertKeys; Config.updateColumns := updateColumns;
     keySpec := ks; returnRows := None |}.

(** [dept_id <- lookup(fromGroup, row[key])] *)
Definition lookupEntry (col fromGroup key : string) (strict : bool) : MappingEntry :=
  {| Config.col := col; source_ := "lookup";
     lookup := Some {| Config.fromGroup := fromGroup; Config.strict := strict;
                       valueType := "jsonata"; value_ := VStr key |};
     srcType := ""; src := VUndefined; transform := "" |}.

Definition mappedGroup (table source : string) (entries : list MappingEntry) : Group :=
  {| Config.table := table; alias := ""; sourceType := "msg"; Config.source := VStr source;
     autoMap := false; mapping := entries; Config.conflict := "none";
     Config.upsertKeys := []; Config.updateColumns := [];
     keySpec := None; returnRows := None |}.

Definition config (txMode : string) (continueOnError : bool) (groups : list Group) : RunConfig :=
  {| Config.txMode := txMode; chunkSize := 500; Config.continueOnError := continueOnError;
     enableWAL := false; syncMode := ""; extraPragmas := "";
     Config.groups := groups; dbPathType := "str"; dbPath := VStr "data.db" |}.

(** A normalised KeySpec on the column [code]. *)
Definition sampleSpec : KeySpec :=
  {| spec_alias := "Departments"; spec_mode := "byColumns"; spec_columns := ["code"];
     spec_template := ""; spec_jsonata := ""; spec_separator := "|";
     spec_selectMissing := false; spec_returnPath := ""; spec_idColumn := "id" |}.

(** The events of a log, oldest first. *)
Definition events (st : state) : list event := rev (map fst (log st)).

(** The warnings of a run, oldest first. *)
Definition warnings (st : state) : list string :=
  omap (fun ev => match ev with EvWarn w => Some w | _ => None end) (events st).

(** The parameters bound to the statements of a run, oldest first. *)
Definition bound (st : state) : list (list value) :=
  omap (fun ev => match ev with EvStmtRun p => Some p | _ => None end) (events st).

(** What the database driver was asked, oldest first. *)
Definition driver_trace (st : state) : list string :=
  omap (fun ev => match ev with
                  | EvRun sql => Some sql
                  | EvPrepare sql => Some ("prepare " +:+ sql)
                  | EvStmtRun _ => Some "step"
                  | EvFinalize => Some "finalize"
                  | EvAll sql _ => Some sql
                  | EvClose => Some "close"
                  | _ => None
                  end) (events st).

End Sample.

(** ** Vocabulary of the specification and of the proofs *)

Module Spec.
Import Config World.

(** [ceil(m/n)] *)
Definition ceil_div (m n : nat) : nat := (m + n - 1) / n.

(** [cs] partitions [rows] into chunks of [n] rows: in order, as many as
    [ceil(|rows|/n)], every chunk but the last with exactly [n] rows, and
    no chunk empty or longer than [n]. *)
Record chunks_of {A} (n : nat) (rows : list A) (cs : list (list A)) : Prop := {
  co_concat : concat cs = rows;
  co_count : length cs = ceil_div (length rows) n;
  co_full : forall j c, cs !! j = Some c -> S j < length cs -> length c = n;
  co_bounds : forall c, c ∈ cs -> 1 <= length c <= n
}.

(** A string made of white space only. *)
Definition blank (s : string) : Prop := Text.trim s = "".

(** [s] is [t] up to the case of its letters. *)
Definition case_variant (s t : string) : Prop :=
  Text.toUpperCase s = Text.toUpperCase t.

(** The values that the specification names for the boolean coercion:
    [true], [1], the string [1] and the strings that are a case variant of
    [true]. *)
Definition named_true (v : value) : bool :=
  match v with
  | VBool b => b
  | VNum n => SFeqb n one
  | VStr s => String.eqb s "1" || String.eqb (Text.toUpperCase s) "TRUE"
  | _ => false
  end.

(** A quoted identifier. *)
Definition quoted (name : string) : string :=
  Util.dq +:+ Util.double_quotes name +:+ Util.dq.

(** [INSERT INTO <table> (<cols>) VALUES (<placeholders>)] *)
Definition insert_into (tbl : string) (cols : list string) : string :=
  "INSERT " +:+ "INTO " +:+ quoted tbl +:+ " (" +:+ Util.join ", " (map quoted cols)
  +:+ ") VALUES (" +:+ Util.join ", " (map (fun _ => "?") cols) +:+ ")".

(** The clause [ON CONFLICT (<keys>) DO ...] of the specification. *)
Definition on_conflict (keys updateCols : list string) : string :=
  match updateCols with
  | [] => " ON CONFLICT (" +:+ Util.join ", " (map quoted keys) +:+ ") DO NOTHING"
  | _ => " ON CONFLICT (" +:+ Util.join ", " (map quoted keys) +:+ ") DO UPDATE SET "
         +:+ Util.join ", " (map (fun c => quoted c +:+ "=excluded." +:+ quoted c) updateCols)
  end.

(** The statement that ends a transaction scope. *)
Definition is_end (ev : event) : bool :=
  match ev with
  | EvRun sql => String.eqb sql "COMMIT" || String.eqb sql "ROLLBACK"
  | _ => false
  end.

(** A logged failure of one row: its mapping threw, or its statement was
    rejected. *)
Definition row_failure (entry : event * Res value) : bool :=
  match entry with
  | (EvMapFailed _ _ _, _) => true
  | (EvStmtRun _, Throw _) => true
  | _ => false
  end.

Definition failures (l : list (event * Res value)) : nat :=
  length (filter (fun x => row_failure x = true) l).

(** Every entry of [maps] was published by a group declared before [gi]. *)
Definition published_before (gi : nat) (maps : gmap string Ctx) : Prop :=
  forall alias ctx, maps !! alias = Some ctx -> publisher ctx < gi.

(** The events that no invariant of this development depends on. *)
Definition benign (ev : event) : bool :=
  match ev with
  | EvRun _ => negb (is_end ev)
  | EvStmtRun _ | EvMapRow _ _ _ | EvMapFailed _ _ _ => false
  | _ => true
  end.

(** A triple on the state alone: from a state in [P], the computation ends
    in a state in [Q], whether it returns or throws. *)
Definition hoare {A} (P : state -> Prop) (m : M A) (Q : state -> Prop) : Prop :=
  forall st, P st -> Q (snd (m st)).

(** [I] is kept by the steps that log a benign event or touch the
    per-table counters, the key specifications or the counters of
    successes. *)
Record stable (I : state -> Prop) : Prop := {
  st_push : forall ev r st, benign ev = true -> I st -> I (push ev r st);
  st_tables : forall f st, I st -> I (Handler.set_byTable f st);
  st_specs : forall f st, I st -> I (Handler.set_keySpecs f st);
  st_counts : forall f st, (forall t, errors (f t) = errors t) ->
                           I st -> I (Handler.set_totals f st)
}.

(** No statement that ends a transaction scope was issued. *)
Definition no_end (st : state) : Prop :=
  forall ev r, (ev, r) ∈ log st -> is_end ev = false.

(** The run-wide error counter is the number of logged row failures. *)
Definition counted (st : state) : Prop :=
  errors (totals st) = failures (log st).

(** The published maps come from groups before [n], and every call of
    [mapRow] for a group was given maps published before that group. *)
Definition ordered (n : nat) (st : state) : Prop :=
  published_before n (ctxMaps st)
  /\ forall gi i maps r, (EvMapRow gi i maps, r) ∈ log st -> published_before gi maps.

(** An entry is in the log. *)
Definition logged (x : event * Res value) (st : state) : Prop := x ∈ log st.

(** What an invariant [P] needs at the rows of group [gi] of table [tbl]:
    it is kept by a statement that succeeds, by a rejected statement once
    its error is counted, by the marker of a call of [mapRow] on the current
    maps, and by a failed mapping once its error is counted. *)
Record row_stable (gi : nat) (tbl : string) (P : state -> Prop) : Prop := {
  rs_stmt_ok : forall p v st, P st -> P (push (EvStmtRun p) (Ok v) st);
  rs_stmt_fail : forall p e st, P st ->
                   P (Handler.bump_errors tbl (push (EvStmtRun p) (Throw e) st));
  rs_map : forall i st, P st -> P (push (EvMapRow gi i (ctxMaps st)) (Ok VUndefined) st);
  rs_map_fail : forall i e st, P st ->
                  P (Handler.bump_errors tbl (push (EvMapFailed gi i e) (Ok VUndefined) st))
}.

(** [P] does not depend on the statements given to [db.run]. *)
Definition ignores_run (P : state -> Prop) : Prop :=
  forall sql r st, P st -> P (push (EvRun sql) r st).

End Spec.

(** ** Configuration files: the path check and the shared watchers *)

Module ConfigFile.
Import Config.

(** [s.endsWith(suffix)]: some tail of [s] is [suffix]. *)
Fixpoint endsWith (s suffix : string) : bool :=
  String.eqb s suffix
  || match s with
     | EmptyString => false
     | String _ s' => endsWith s' suffix
     end.

(** [ensureJsonExt(p)] *)
Definition ensureJsonExt (p : value) : Res unit :=
  match p with
  | VStr s =>
      if String.eqb s "" then Throw (Error "Config path is empty")
      else if endsWith (Text.toLowerCase s) ".json" then Ok tt
      else Throw (Error "Config path must end with .json")
  | _ => Throw (Error "Config path is empty")
  end.

(** The settings of a node that concern its configuration file. *)
Record NodeFile : Type := {
  useConfigFile : bool;
  watchFile : bool;
  configPath : string
}.

(** What happens to the file watchers. *)
Inductive wevent : Type :=
| WatchOpen (abs : string)
| WatchClose (abs : string).

(** The module-level table [watchers]: for each absolute path the number
    of nodes counted on its watcher; and the log of the watchers opened and
    closed, most recent first. *)
Record wstate : Type := {
  watchers : gmap string Z;
  wlog : list wevent
}.

Section WithFiles.
(** [resolveUnderUserDir(rel)], which rests on [path.resolve] and the user
    directory of the host. *)
Variable resolveUnderUserDir : string -> Res string.
(** Whether [fs.watch(abs)] succeeds (it throws for a file that does not
    exist). *)
Variable canWatch : string -> bool.

(** [startWatchingIfNeeded()] for a node: every exception is ignored. *)
Definition startWatchingIfNeeded (node : NodeFile) (ws : wstate) : wstate :=
  if negb (useConfigFile node) || negb (watchFile node) then ws
  else
    match ensureJsonExt (VStr (configPath node)) with
    | Throw _ => ws
    | Ok _ =>
        match resolveUnderUserDir (configPath node) with
        | Throw _ => ws
        | Ok abs =>
            match watchers ws !! abs with
            | Some count =>
                {| watchers := <[abs := (count + 1)%Z]> (watchers ws); wlog := wlog ws |}
            | None =>
                if canWatch abs
                then {| watchers := <[abs := (0 + 1)%Z]> (watchers ws);
                        wlog := WatchOpen abs :: wlog ws |}
                else ws
            end
        end
    end.

(** [stopWatching()] for a node: every exception is ignored.
    [info.watcher.close()] is taken to return, as the [close] of Node's
    [FSWatcher] does. *)
Definition stopWatching (node : NodeFile) (ws : wstate) : wstate :=
  if negb (useConfigFile node) || String.eqb (configPath node) "" then ws
  else
    match resolveUnderUserDir (configPath node) with
    | Throw _ => ws
    | Ok abs =>
        match watchers ws !! abs with
        | None => ws
        | Some count =>
            if (count - 1 <=? 0)%Z
            then {| watchers := delete abs (watchers ws); wlog := WatchClose abs :: wlog ws |}
            else {| watchers := <[abs := (count - 1)%Z]> (watchers ws); wlog := wlog ws |}
        end
    end.

End WithFiles.
End ConfigFile.

(** ** More vocabulary: reading back what the code writes *)

Module Readback.
Import Config World.

(** The text between the outer quotes of a quoted identifier, with its
    doubled quotes halved; [None] when [s] is not such a text followed by
    the closing quote. *)
Fixpoint unquote_body (s : string) : option string :=
  match s with
  | EmptyString => None
  | String c s' =>
      if Ascii.eqb c Util.quote_char then
        match s' with
        | EmptyString => Some EmptyString
        | String c' s'' =>
            if Ascii.eqb c' Util.quote_char
            then option_map (String c) (unquote_body s'')
            else None
        end
      else option_map (String c) (unquote_body s')
  end.

(** The name that a quoted identifier stands for. *)
Definition unquote (q : string) : option string :=
  match q with
  | String c s => if Ascii.eqb c Util.quote_char then unquote_body s else None
  | EmptyString => None
  end.

(** [INSERT ], [INSERT OR IGNORE ] or [INSERT OR REPLACE ]. *)
Definition insert_verb (conflict : string) : string :=
  if String.eqb conflict "ignore" then "INSERT OR IGNORE "
  else if String.eqb conflict "replace" then "INSERT OR REPLACE "
  else "INSERT ".

(** The error of [qid] for the empty name. *)
Definition bad_name : exn := Error "Invalid identifier: ".

(** The identifiers that [buildInsertSQL] quotes are all valid. *)
Definition valid_names (g : Group) (cols : list string) : Prop :=
  table g <> "" /\ Forall (fun c => c <> "") cols
  /\ (conflict g = "upsert" -> Sql.filter_truthy (upsertKeys g) <> [] ->
      Forall (fun c => c <> "") (updateColumns g)).

(** The parameters of the [db.all] requests of a log, oldest first. *)
Definition selects (l : list (event * Res value)) : list (list string) :=
  omap (fun x => match fst x with EvAll _ params => Some params | _ => None end) (rev l).

(** [id ?? null] *)
Definition or_null (id : value) : value := if nullish id then VNull else id.

(** Every count of the table of watchers is at least one. *)
Definition counts_positive (ws : ConfigFile.wstate) : Prop :=
  forall abs c, ConfigFile.watchers ws !! abs = Some c -> (1 <= c)%Z.

(** The watcher of a path is open: its most recent event is its opening. *)
Fixpoint is_open (abs : string) (l : list ConfigFile.wevent) : bool :=
  match l with
  | [] => false
  | ConfigFile.WatchOpen a :: rest => String.eqb a abs || is_open abs rest
  | ConfigFile.WatchClose a :: rest => negb (String.eqb a abs) && is_open abs rest
  end.

(** The table of watchers holds exactly the paths whose watcher is open. *)
Definition table_matches_watchers (ws : ConfigFile.wstate) : Prop :=
  forall abs, is_Some (ConfigFile.watchers ws !! abs) <-> is_open abs (ConfigFile.wlog ws) = true.

(** A statement of the PRAGMA block, or its warning. *)
Definition pragma_event (ev : event) : bool :=
  match ev with
  | EvRun sql => String.prefix "PRAGMA " sql
  | EvWarn w => String.prefix "PRAGMA warning: " w
  | _ => false
  end.

(** From [st0] on, only statements of the PRAGMA block and its warning were
    logged, and nothing else of the state changed. *)
Definition only_pragmas (st0 st : state) : Prop :=
  (exists new, log st = new ++ log st0
               /\ Forall (fun x => pragma_event (fst x) = true) new)
  /\ totals st = totals st0 /\ byTable st = byTable st0
  /\ ctxMaps st = ctxMaps st0 /\ keySpecs st = keySpecs st0.

(** A code unit occurs in a string. *)
Fixpoint occurs (c : ascii) (s : string) : bool :=
  match s with
  | EmptyString => false
  | String d s' => Ascii.eqb c d || occurs c s'
  end.

(** Every code unit of a string is white space. *)
Fixpoint all_space (s : string) : bool :=
  match s with
  | EmptyString => true
  | String c s' => Text.is_space c && all_space s'
  end.

End Readback.

(** ** A sample user directory *)

Module SampleFiles.
Import ConfigFile.

(** Paths are resolved under [/data]; a path that climbs out of it is
    refused. *)
Definition resolve (rel : string) : Res string :=
  if String.prefix ".." rel then Throw (Error "Config path must be under userDir")
  else Ok ("/data/" +:+ rel).

(** Only [/data/cfg.json] exists. *)
Definition exists_on_disk (abs : string) : bool := String.eqb abs "/data/cfg.json".

Definition node : NodeFile :=
  {| useConfigFile := true; watchFile := true; configPath := "cfg.json" |}.

(** One node already watches [/data/cfg.json]. *)
Definition watching : wstate :=
  {| watchers := {[ "/data/cfg.json" := 1%Z ]}; wlog := [WatchOpen "/data/cfg.json"] |}.

End SampleFiles.

(** ** A sample group that returns its rows *)

Module SampleRows.
Import Config World.

Definition group : Group :=
  {| table := "Departments"; alias := ""; sourceType := "msg"; source := VStr "departments";
     autoMap := true; mapping := []; conflict := "none";
     upsertKeys := []; updateColumns := [];
     keySpec := Some (Sample.keyOn "byColumns" ["code"] "");
     returnRows := Some {| rr_mode := "rows"; rr_pathType := ""; rr_path := "" |} |}.

(** The rows of the group once mapped. *)
Definition mapped : list value :=
  [VObj [("code", VStr "HR")]; VObj [("code", VStr "ENG")]].

(** The state after the chunks of the group: its KeySpec is known. *)
Definition after_chunks : state :=
  {| log := log init; totals := totals init; byTable := byTable init;
     ctxMaps := ctxMaps init; keySpecs := {[ "Departments" := Sample.sampleSpec ]} |}.

End SampleRows.

(* ===================================================================== *)
(** * Theorems *)
(* ===================================================================== *)

(** ** Chunking *)

Import Config World Spec.

(** The examples run on the sample runtime. *)
#[local] Existing Instance Sample.runtime.

Section ChunkifyFacts.
Context {A : Type}.
Implicit Types (arr : list A) (out cs : list (list A)).

Lemma ceil_div_0 n : 1 <= n -> ceil_div 0 n = 0.
Proof.
  intros Hn. unfold ceil_div. apply Nat.div_small. lia.
Qed.

Lemma ceil_div_step m n : 1 <= n -> 1 <= m -> ceil_div m n = S (ceil_div (m - n) n).
Proof.
  intros Hn Hm. unfold ceil_div.
  destruct (le_lt_dec m n) as [Hle | Hgt].
  - replace (m - n + n - 1) with (n - 1) by lia.
    rewrite (Nat.div_small (n - 1) n) by lia.
    symmetry. apply (Nat.div_unique (m + n - 1) n 1 (m - 1)); lia.
  - replace (m + n - 1) with ((m - n + n - 1) + 1 * n) by lia.
    rewrite Nat.div_add by lia. lia.
Qed.

Lemma chunkify_loop_spec fuel : forall arr n i out,
  1 <= n -> length arr <= i + fuel ->
  exists cs, Util.chunkify_loop fuel arr n i out = Some (out ++ cs)
             /\ chunks_of n (skipn i arr) cs.
Proof.
  induction fuel as [| fuel IH]; intros arr n i out Hn Hfuel.
  - exists []. cbn [Util.chunkify_loop].
    destruct (Nat.ltb_spec i (length arr)); [lia |].
    rewrite app_nil_r. split; [reflexivity |].
    rewrite skipn_all2 by lia.
    split; cbn; [reflexivity | now rewrite ceil_div_0 | intros ? ? Hj; now rewrite lookup_nil in Hj
                | intros c Hc; inversion Hc].
  - cbn [Util.chunkify_loop].
    destruct (Nat.ltb_spec i (length arr)) as [Hlt | Hge].
    + destruct (IH arr n (i + n) (out ++ [Util.slice arr i n]) Hn) as (cs & Heq & Hcs); [lia |].
      exists (Util.slice arr i n :: cs). split.
      { rewrite Heq, <- app_assoc. reflexivity. }
      assert (Hskip : skipn (i + n) arr = skipn n (skipn i arr)).
      { rewrite skipn_skipn. f_equal. lia. }
      assert (Hlen : length (Util.slice arr i n) = Nat.min n (length arr - i)).
      { unfold Util.slice. rewrite length_firstn, length_skipn. reflexivity. }
      destruct Hcs as [Hc1 Hc2 Hc3 Hc4]. split.
      * cbn [concat]. rewrite Hc1, Hskip. unfold Util.slice. apply firstn_skipn.
      * cbn [length]. rewrite Hc2, !length_skipn.
        rewrite (ceil_div_step (length arr - i) n) by lia.
        f_equal. f_equal. lia.
      * intros [| j] c Hj Hlast; cbn in Hj.
        -- injection Hj as <-. rewrite Hlen.
           cbn [length] in Hlast. rewrite Hc2, length_skipn in Hlast.
           destruct (le_lt_dec (length arr - (i + n)) 0) as [H0 | H0].
           ++ replace (length arr - (i + n)) with 0 in Hlast by lia.
              rewrite ceil_div_0 in Hlast by lia. lia.
           ++ lia.
        -- apply (Hc3 j c Hj). cbn [length] in Hlast. lia.
      * intros c Hc. apply elem_of_cons in Hc as [-> | Hc]; [| now apply Hc4].
        rewrite Hlen. lia.
    + exists []. rewrite app_nil_r. split; [reflexivity |].
      rewrite skipn_all2 by lia.
      split; cbn; [reflexivity | now rewrite ceil_div_0 | intros ? ? Hj; now rewrite lookup_nil in Hj
                  | intros c Hc; inversion Hc].
Qed.

Lemma chunkify_spec arr n :
  1 <= n -> exists cs, Util.chunkify arr n = Some cs /\ chunks_of n arr cs.
Proof.
  intros Hn. unfold Util.chunkify.
  destruct (chunkify_loop_spec (length arr) arr n 0 [] Hn) as (cs & Heq & Hcs); [lia |].
  exists cs. split; [exact Heq | exact Hcs].
Qed.

End ChunkifyFacts.

(** ** Transforms *)

Section TextFacts.
Import Text.

Lemma test_lit_cons c re d s :
  test (Lit c :: re) (String d s) = Ascii.eqb (upper_char d) (upper_char c) && test re s.
Proof. cbn [test]. unfold ci_eqb. now rewrite Ascii.eqb_sym. Qed.

Lemma eqb_upper_cons d s c t :
  String.eqb (toUpperCase (String d s)) (String c t)
  = Ascii.eqb (upper_char d) c && String.eqb (toUpperCase s) t.
Proof. reflexivity. Qed.

(** [/^true$/i] accepts exactly the case variants of [true]. *)
Lemma test_re_true s : test re_true s = String.eqb (toUpperCase s) "TRUE".
Proof.
  unfold re_true.
  destruct s as [| c1 [| c2 [| c3 [| c4 [| c5 s]]]]];
    rewrite ?test_lit_cons, ?eqb_upper_cons; try reflexivity.
Qed.

End TextFacts.

(** C6.  With [txMode = chunk] and chunk size [N], the mapped rows are
    split, in order, into [ceil(M / max(1, N))] chunks, each but possibly the
    last with exactly [max(1, N)] rows; in the modes [all], [perTable] and
    [off] the whole list is the only chunk.  [N] is the effective
    [local.chunkSize]. *)
Theorem chunk_partition {A} (mapped : list A) (N : Z) :
  (exists cs, Handler.chunksOf "chunk" N mapped = Some cs
              /\ chunks_of (Z.to_nat (Z.max 1 N)) mapped cs)
  /\ (forall mode, mode = "all" \/ mode = "perTable" \/ mode = "off" ->
        Handler.chunksOf mode N mapped = Some [mapped]).
Proof.
  split.
  - unfold Handler.chunksOf. cbn [String.eqb]. apply chunkify_spec. lia.
  - intros mode [-> | [-> | ->]]; reflexivity.
Qed.

Lemma chunk_partition_witness :
  Handler.chunksOf "perTable" 2 [1; 2; 3; 4; 5] = Some [[1; 2; 3; 4; 5]].
Proof.
  apply (proj2 (chunk_partition [1; 2; 3; 4; 5] 2)). right. left. reflexivity.
Defined.

(** The chunk size of a run is [Number(runCfg.chunkSize || 500)]: a missing
    or zero setting is read as [500] before the floor at one applies. *)
Lemma localChunkSize_missing cfg :
  chunkSize cfg = 0%Z -> Handler.localChunkSize cfg = 500%Z.
Proof. unfold Handler.localChunkSize. now intros ->. Qed.

Example chunk_partition_example :
  Handler.chunksOf "chunk" 2 [1; 2; 3; 4; 5] = Some [[1; 2]; [3; 4]; [5]]
  /\ Handler.chunksOf "chunk" 0 [1; 2] = Some [[1]; [2]].
Proof. split; reflexivity. Qed.

Section TransformFacts.
Context `{Runtime}.
Import Text.

Lemma test_opt_cons c re d s :
  test (Opt c :: re) (String d s)
  = (Ascii.eqb (upper_char d) (upper_char c) && test re s) || test re (String d s).
Proof. cbn [test]. unfold ci_eqb. now rewrite Ascii.eqb_sym. Qed.

(** The second regular expression accepts exactly the case variants of
    [NA] and [N/A]. *)
Lemma test_re_na s :
  test re_na s = String.eqb (toUpperCase s) "NA" || String.eqb (toUpperCase s) "N/A".
Proof.
  unfold re_na.
  destruct s as [| c1 [| c2 [| c3 [| c4 s]]]];
    rewrite ?test_lit_cons, ?test_opt_cons, ?test_lit_cons, ?eqb_upper_cons;
    try reflexivity; cbn [test String.eqb upper_char nat_of_ascii];
    change (upper_char "N") with "N"%char; change (upper_char "A") with "A"%char;
    change (upper_char "/") with "/"%char;
    repeat match goal with
           | |- context [Ascii.eqb ?a ?b] => destruct (Ascii.eqb_spec a b)
           end; try reflexivity; congruence.
Qed.

Lemma SFeqb_one n : SFeqb n one = true <-> n = one.
Proof.
  split; [| intros ->; vm_compute; reflexivity].
  unfold one. generalize 4503599627370496%positive as c. intros c.
  unfold SFeqb, SFcompare.
  destruct n as [s | s | | s m e]; try discriminate; destruct s; try discriminate.
  destruct (Z.compare_spec e (-52)) as [-> | |]; try discriminate.
  change (Pos.compare_cont Eq m c) with (Pos.compare m c).
  destruct (Pos.compare_spec m c) as [-> | |]; try discriminate.
  reflexivity.
Qed.

Lemma ToNumber_of_ToString v s :
  ToString v = Ok s -> exists n, ToNumber v = Ok n.
Proof.
  intros Hs. destruct v as [| | [] | | | | |]; cbn [ToNumber]; eauto;
    try discriminate; rewrite Hs; cbn; eauto.
Qed.

(** C7 (as amended).  For a value [v] with string form [s]:
    - the boolean coercion gives [1] when [v] is [true], [1] or the string
      [1], or when [s] is a case variant of [true], and [0] otherwise;
    - the numeric coercion gives [null] when [v] is [null] or [undefined]
      or [s] is blank, and otherwise the number [Number(v)] when it is
      finite and [null] when it is not;
    - the normalisation gives [null] when [v] is [null] or [undefined], or
      the trimmed [s] is empty or a case variant of [N/A] or [NA], and [v]
      itself otherwise;
    - the stringification gives the empty string for [null] and [undefined]
      and [s] otherwise. *)
Theorem transforms_semantics (v : value) (s : string) :
  ToString v = Ok s ->
  (* boolean coercion *)
  ((v = VBool true \/ v = VNum one \/ v = VStr "1" \/ case_variant s "true") ->
     Transforms.bool01 v = Ok (VNum one))
  /\ (~ (v = VBool true \/ v = VNum one \/ v = VStr "1" \/ case_variant s "true") ->
     Transforms.bool01 v = Ok (VNum zero))
  (* numeric coercion *)
  /\ (nullish v = true \/ blank s -> Transforms.number v = Ok VNull)
  /\ (nullish v = false -> ~ blank s ->
      exists n, ToNumber v = Ok n
                /\ Transforms.number v = Ok (if isFinite n then VNum n else VNull))
  (* null normalisation *)
  /\ (nullish v = true \/ blank s
      \/ case_variant (Text.trim s) "N/A" \/ case_variant (Text.trim s) "NA" ->
      Transforms.nz v = Ok VNull)
  /\ (nullish v = false -> ~ blank s -> ~ case_variant (Text.trim s) "N/A" ->
      ~ case_variant (Text.trim s) "NA" -> Transforms.nz v = Ok v)
  (* stringification *)
  /\ Transforms.string v = Ok (VStr (if nullish v then "" else s)).
Proof.
  intros Hs.
  assert (Hb : Transforms.bool01 v = Ok (VNum (if Transforms.is_true v || Transforms.is_one v || Transforms.is_str_one v
                                       || String.eqb (toUpperCase s) "TRUE"
                                    then one else zero))).
  { unfold Transforms.bool01. destruct (Transforms.is_true v || Transforms.is_one v || Transforms.is_str_one v); [reflexivity |].
    rewrite Hs. cbn [rbind orb]. rewrite test_re_true.
    destruct (String.eqb (toUpperCase s) "TRUE"); reflexivity. }
  assert (Hiff : Transforms.is_true v || Transforms.is_one v || Transforms.is_str_one v
                 || String.eqb (toUpperCase s) "TRUE" = true
                 <-> (v = VBool true \/ v = VNum one \/ v = VStr "1" \/ case_variant s "true")).
  { unfold case_variant. change (toUpperCase "true") with "TRUE".
    rewrite !orb_true_iff, String.eqb_eq. split.
    - intros [[[Ht | Ho] | Hso] | Hc]; [| | | tauto].
      + destruct v as [| | [] | | | | |]; try discriminate. tauto.
      + destruct v; try discriminate. apply SFeqb_one in Ho. subst. tauto.
      + destruct v; try discriminate. apply String.eqb_eq in Hso. subst. tauto.
    - intros [-> | [-> | [-> | Hc]]]; cbn; tauto. }
  repeat split.
  - intros Hc. apply Hiff in Hc. now rewrite Hb, Hc.
  - intros Hc. rewrite Hb.
    destruct (Transforms.is_true v || Transforms.is_one v || Transforms.is_str_one v || String.eqb (toUpperCase s) "TRUE");
      [exfalso; apply Hc, Hiff; reflexivity | reflexivity].
  - unfold Transforms.number, blank. intros [Hn | Hbl].
    + now rewrite Hn.
    + destruct (nullish v); [reflexivity |]. rewrite Hs. cbn [rbind].
      now rewrite Hbl.
  - unfold Transforms.number, blank. intros Hn Hbl. rewrite Hn, Hs. cbn [rbind].
    destruct (String.eqb_spec (Text.trim s) ""); [contradiction |].
    destruct (ToNumber_of_ToString v s Hs) as [x Hnum]. exists x.
    rewrite Hnum. cbn [rbind]. split; [reflexivity |].
    destruct (isFinite x); reflexivity.
  - unfold Transforms.nz, blank, case_variant. change (toUpperCase "N/A") with "N/A".
    change (toUpperCase "NA") with "NA".
    intros Hc. destruct (nullish v); [reflexivity |]. rewrite Hs. cbn [rbind].
    rewrite test_re_na.
    destruct Hc as [Hc | [Hc | [Hc | Hc]]]; [discriminate | | |]; rewrite Hc; cbn;
      rewrite ?orb_true_r; reflexivity.
  - unfold Transforms.nz, blank, case_variant. change (toUpperCase "N/A") with "N/A".
    change (toUpperCase "NA") with "NA".
    intros Hn Hbl Hna1 Hna2. rewrite Hn, Hs. cbn [rbind]. rewrite test_re_na.
    destruct (String.eqb_spec (Text.trim s) ""); [contradiction |].
    destruct (String.eqb_spec (toUpperCase (Text.trim s)) "NA"); [contradiction |].
    destruct (String.eqb_spec (toUpperCase (Text.trim s)) "N/A"); [contradiction |].
    reflexivity.
  - unfold Transforms.string. destruct (nullish v); [reflexivity |]. now rewrite Hs.
Qed.

(** C9.  [Transforms.applyTransform] always returns: it never throws, and when the
    transform function throws, it returns the value it was given. *)
Theorem applyTransform_never_fails (v : value) (name : String.string) :
  (exists r, Transforms.applyTransform v name = Ok r)
  /\ (forall e, Transforms.transform_fn name v = Throw e -> Transforms.applyTransform v name = Ok v).
Proof.
  unfold Transforms.applyTransform. split.
  - destruct (Transforms.transform_fn name v); eauto.
  - intros e ->. reflexivity.
Qed.

End TransformFacts.

(** The array holding the string [TRUE] is none of the values named by the
    specification, and the boolean coercion maps it to [1]. *)
Lemma bool01_array_counterexample :
  ~ (forall (rt : Runtime) (v : value),
       Transforms.bool01 v = Ok (VNum (if named_true v then one else zero))).
Proof.
  intros Hclaim.
  specialize (Hclaim Sample.runtime (VArr [VStr "TRUE"])).
  vm_compute in Hclaim. discriminate Hclaim.
Qed.

Lemma transforms_semantics_witness :
  Transforms.bool01 (VArr [VBool true]) = Ok (VNum one)
  /\ Transforms.number (VStr " 42 ") = Ok (VNum (Sample.of_Z 42))
  /\ Transforms.nz (VStr " n/a ") = Ok VNull
  /\ Transforms.string VNull = Ok (VStr "").
Proof.
  pose proof (transforms_semantics (VArr [VBool true]) "true" eq_refl) as (Hb & _).
  pose proof (transforms_semantics (VStr " 42 ") " 42 " eq_refl) as (_ & _ & _ & Hn & _).
  pose proof (transforms_semantics (VStr " n/a ") " n/a " eq_refl) as (_ & _ & _ & _ & Hz & _).
  pose proof (transforms_semantics VNull "null" eq_refl) as (_ & _ & _ & _ & _ & _ & Hs).
  split; [| split; [| split]].
  - apply Hb. right. right. right. reflexivity.
  - destruct Hn as (n & Hnum & Hres); [reflexivity | discriminate |].
    injection Hnum as <-. exact Hres.
  - apply Hz. right. right. left. reflexivity.
  - exact Hs.
Defined.

Lemma applyTransform_never_fails_witness :
  Transforms.applyTransform (VBare []) "upper" = Ok (VBare []).
Proof.
  apply (proj2 (applyTransform_never_fails (VBare []) "upper")
               (TypeError "Cannot convert object to primitive value")).
  reflexivity.
Defined.

(** ** The SQL builder *)

Section SqlFacts.
Context `{Runtime}.
Import Util Sql.

Lemma qid_nonempty (name : string) :
  name <> "" -> qid (VStr name) = Ok (quoted name).
Proof.
  intros Hne. unfold qid. destruct (String.eqb_spec name ""); [contradiction | reflexivity].
Qed.

Lemma mapM_ok {A B} (f : A -> Res B) (g : A -> B) (l : list A) :
  Forall (fun x => f x = Ok (g x)) l -> mapM f l = Ok (map g l).
Proof.
  induction 1 as [| x l Hx _ IH]; [reflexivity |].
  cbn [mapM map]. rewrite Hx. cbn [rbind]. rewrite IH. reflexivity.
Qed.

Lemma qids_nonempty (names : list string) :
  Forall (fun c => c <> "") names -> qids names = Ok (map quoted names).
Proof.
  intros Hall. unfold qids. apply mapM_ok.
  eapply Forall_impl; [exact Hall |]. intros c Hc. now apply qid_nonempty.
Qed.

Lemma filter_truthy_nonempty (l : list string) :
  Forall (fun c => c <> "") (filter_truthy l).
Proof.
  unfold filter_truthy. induction l as [| c l IH]; [constructor |].
  rewrite filter_cons. destruct (String.eqb_spec c "") as [-> | Hc].
  - rewrite decide_False by (cbn; tauto). exact IH.
  - rewrite decide_True by (cbn; tauto). constructor; assumption.
Qed.

Lemma buildUpsert_spec (keys updateCols : list string) :
  Forall (fun c => c <> "") updateCols ->
  buildUpsert keys updateCols
  = Ok (match filter_truthy keys with
        | [] => ""
        | k => on_conflict k updateCols
        end).
Proof.
  intros Hupd. unfold buildUpsert.
  pose proof (filter_truthy_nonempty keys) as Hk.
  destruct (filter_truthy keys) as [| k0 ks] eqn:Ek; [reflexivity |].
  rewrite (qids_nonempty _ Hk). cbn [rbind]. unfold on_conflict.
  destruct updateCols as [| u us]; [reflexivity |].
  rewrite (mapM_ok _ (fun c => quoted c +:+ "=excluded." +:+ quoted c)); [reflexivity |].
  eapply Forall_impl; [exact Hupd |]. intros c Hc. cbn beta.
  rewrite (qid_nonempty c Hc). reflexivity.
Qed.

(** C3 (as amended).  For a group with [conflict = upsert] and valid
    identifiers, the statement carries the clause [ON CONFLICT] over the
    configured [upsertKeys] (empty names dropped) exactly when there is such
    a key: [DO UPDATE SET col=excluded.col, ...] when [updateColumns] is not
    empty, [DO NOTHING] otherwise; with no key there is no clause.  The
    handler leaves [upsertKeys] as configured: nothing is taken from the
    columns of the KeySpec. *)
Theorem upsert_clause (g : Group) (cols : list string) :
  conflict g = "upsert" ->
  table g <> "" ->
  Forall (fun c => c <> "") cols ->
  Forall (fun c => c <> "") (updateColumns g) ->
  buildInsertSQL (Handler.normGroup g) cols
  = Ok (insert_into (table g) cols
        +:+ match filter_truthy (upsertKeys g) with
            | [] => ""
            | k => on_conflict k (updateColumns g)
            end)
  /\ upsertKeys (Handler.normGroup g) = upsertKeys g.
Proof.
  intros Hc Ht Hcols Hupd. split; [| reflexivity].
  unfold buildInsertSQL. cbn [Handler.normGroup table conflict upsertKeys updateColumns].
  rewrite Hc. cbn [or_default String.eqb Ascii.eqb Bool.eqb].
  rewrite (qid_nonempty _ Ht). cbn [rbind].
  rewrite (qids_nonempty _ Hcols). cbn [rbind].
  rewrite (buildUpsert_spec _ _ Hupd). reflexivity.
Qed.

End SqlFacts.

(** A group with [conflict = upsert], no [upsertKeys] and a [byColumns]
    KeySpec on [code]: the statement that the run prepares has no
    [ON CONFLICT] clause. *)
Lemma upsert_without_keys_counterexample :
  let g := Sample.autoGroup "Departments" "departments" "upsert" [] []
             (Some (Sample.keyOn "byColumns" ["code"] "")) in
  Sample.driver_trace (snd (Handler.run Sample.world (Sample.config "perTable" false [g])))
  = ["BEGIN";
     "prepare INSERT INTO " +:+ quoted "Departments" +:+ " (" +:+ quoted "code" +:+ ") VALUES (?)";
     "step"; "step"; "finalize"; "COMMIT";
     "SELECT " +:+ quoted "id" +:+ " AS id, (COALESCE(" +:+ quoted "code" +:+ ",'')) AS _k FROM "
       +:+ quoted "Departments" +:+ " WHERE (COALESCE(" +:+ quoted "code" +:+ ",'')) IN (?, ?)";
     "close"].
Proof. vm_compute. reflexivity. Qed.

Lemma upsert_clause_witness :
  let g := Sample.autoGroup "Departments" "departments" "upsert" ["code"] ["name"] None in
  Sql.buildInsertSQL (Handler.normGroup g) ["code"; "name"]
  = Ok ("INSERT INTO " +:+ quoted "Departments" +:+ " (" +:+ quoted "code" +:+ ", "
        +:+ quoted "name" +:+ ") VALUES (?, ?) ON CONFLICT (" +:+ quoted "code"
        +:+ ") DO UPDATE SET " +:+ quoted "name" +:+ "=excluded." +:+ quoted "name").
Proof.
  intros g.
  refine (eq_trans (proj1 (upsert_clause g ["code"; "name"] eq_refl _ _ _)) _).
  - discriminate.
  - repeat constructor; discriminate.
  - repeat constructor; discriminate.
  - vm_compute. reflexivity.
Defined.

(** ** The row mapper *)

Section MapperFacts.
Context `{Runtime}.
Variable world : list (event * Res value) -> event -> Res value.
Import Util Mapper.

Lemma keyShow_total (val : value) : exists shown, keyShow val = Ok shown.
Proof.
  unfold keyShow. destruct val as [| | [] | | | | |]; cbn; eauto.
Qed.

(** The resolver returns [null] or an identifier that is not [null]. *)
Lemma resolveLookupId_result fromAlias maps specs provided st id st' :
  resolveLookupId fromAlias maps specs provided st = (Ok id, st') ->
  id = VNull \/ nullish id = false.
Proof.
  unfold resolveLookupId. destruct (maps !! fromAlias) as [ctx |].
  - unfold bind, lift, ret.
    destruct (Keys.composeKeyWithSpec _ _ _); [| discriminate].
    intros [= <- _]. destruct (ctx_map ctx !! a) as [v |]; [| now left].
    destruct (nullish v) eqn:Hn; [now left | now right].
  - unfold bind, note, ret. intros [= <- _]. now left.
Qed.

(** C8.  In a lookup entry of a mapping, once the key value [val] is
    resolved and the lookup has answered [id]: if [id] is [null] and the
    entry is strict, the mapping of the row stops there with an error that
    names the source alias and the key as text; otherwise [id] (an
    identifier or [null]) is assigned to the column and the mapping goes on
    with the next entry. *)
Theorem lookup_strict_or_assign maps specs srcRow out (m : MappingEntry)
    (rest : list MappingEntry) st val st1 id st2 :
  let fromGroup := from_option Config.fromGroup "" (lookup m) in
  let strict := from_option Config.strict false (lookup m) in
  col m <> "" ->
  source_ m = "lookup" ->
  typedGet world (or_default (from_option valueType "" (lookup m)) "str")
           (from_option value_ VUndefined (lookup m)) (Some srcRow) st = (Ok val, st1) ->
  resolveLookupId fromGroup maps specs val st1 = (Ok id, st2) ->
  (id = VNull /\ strict = true ->
     exists shown,
       keyShow val = Ok shown
       /\ mapEntries world maps specs srcRow out (m :: rest) st
          = (Throw (Error ("lookup failed for group " +:+ dq +:+ fromGroup +:+ dq
                           +:+ " key=" +:+ shown)), st2))
  /\ (~ (id = VNull /\ strict = true) ->
      mapEntries world maps specs srcRow out (m :: rest) st
      = mapEntries world maps specs srcRow (setProp out (col m) id) rest st2).
Proof.
  intros fromGroup strict Hcol Hsrc Hget Hres.
  pose proof (resolveLookupId_result _ _ _ _ _ _ _ Hres) as Hid.
  assert (Hentry : mapEntry world maps specs srcRow out m st
                   = (if nullish id && strict
                      then bind (lift (keyShow val)) (fun shown =>
                             throw (Error ("lookup failed for group " +:+ dq +:+ fromGroup
                                           +:+ dq +:+ " key=" +:+ shown)))
                      else ret (setProp out (col m) (if nullish id then VNull else id))) st2).
  { unfold mapEntry. destruct (String.eqb_spec (col m) ""); [contradiction |].
    rewrite Hsrc. cbn [String.eqb Ascii.eqb Bool.eqb].
    unfold bind at 1. fold fromGroup strict. rewrite Hget.
    unfold bind at 1. rewrite Hres. reflexivity. }
  split.
  - intros [-> ->]. destruct (keyShow_total val) as [shown Hshown].
    exists shown. split; [exact Hshown |].
    cbn [mapEntries]. unfold bind at 1. rewrite Hentry. cbn [nullish andb].
    unfold bind, lift, throw. rewrite Hshown. reflexivity.
  - intros Hno. cbn [mapEntries]. unfold bind at 1. rewrite Hentry.
    destruct Hid as [-> | Hnn].
    + destruct strict; [exfalso; apply Hno; split; reflexivity |]. reflexivity.
    + rewrite Hnn. reflexivity.
Qed.

End MapperFacts.

(** A strict lookup into a group that has published nothing, and the same
    lookup when it is not strict. *)
Lemma lookup_strict_or_assign_witness :
  let maps : gmap string Ctx := ∅ in
  let row := VObj [("dept_code", VStr "ENG")] in
  Mapper.mapEntries Sample.world maps ∅ row []
    [Sample.lookupEntry "dept_id" "Departments" "dept_code" true] init
  = (Throw (Error ("lookup failed for group " +:+ Util.dq +:+ "Departments" +:+ Util.dq
                   +:+ " key=ENG")),
     push (EvWarn ("lookup map missing for " +:+ Util.dq +:+ "Departments" +:+ Util.dq))
          (Ok VUndefined)
          (push (EvResolve "jsonata" (VStr "dept_code") (Some row)) (Ok (VStr "ENG")) init))
  /\ fst (Mapper.mapEntries Sample.world maps ∅ row []
            [Sample.lookupEntry "dept_id" "Departments" "dept_code" false] init)
     = Ok [("dept_id", VNull)].
Proof.
  intros maps row. split.
  - destruct (proj1 (lookup_strict_or_assign Sample.world maps ∅ row []
                       (Sample.lookupEntry "dept_id" "Departments" "dept_code" true) []
                       init (VStr "ENG") _ VNull _
                       ltac:(discriminate) eq_refl eq_refl eq_refl)
                    (conj eq_refl eq_refl)) as (shown & Hshown & Hrun).
    injection Hshown as <-. exact Hrun.
  - rewrite (proj2 (lookup_strict_or_assign Sample.world maps ∅ row []
                       (Sample.lookupEntry "dept_id" "Departments" "dept_code" false) []
                       init (VStr "ENG") _ VNull _
                       ltac:(discriminate) eq_refl eq_refl eq_refl)).
    + reflexivity.
    + intros [_ Hs]. discriminate Hs.
Defined.

(** ** Rules for triples on the state *)

Section HoareRules.
Implicit Types (P Q R : state -> Prop).

Lemma hoare_conseq {A} P P' Q Q' (m : M A) :
  (forall st, P' st -> P st) -> (forall st, Q st -> Q' st) ->
  hoare P m Q -> hoare P' m Q'.
Proof. intros HP HQ Hm st Hst. apply HQ, Hm, HP, Hst. Qed.

Lemma hoare_ret {A} P (a : A) : hoare P (ret a) P.
Proof. intros st Hst. exact Hst. Qed.

Lemma hoare_throw {A} P e : hoare P (@throw A e) P.
Proof. intros st Hst. exact Hst. Qed.

Lemma hoare_lift {A} P (r : Res A) : hoare P (lift r) P.
Proof. intros st Hst. exact Hst. Qed.

Lemma hoare_gets {A} P (f : state -> A) : hoare P (gets f) P.
Proof. intros st Hst. exact Hst. Qed.

Lemma hoare_modify P Q (f : state -> state) :
  (forall st, P st -> Q (f st)) -> hoare P (modify f) Q.
Proof. intros Hf st Hst. apply Hf, Hst. Qed.

Lemma hoare_bind {A B} P Q R (m : M A) (k : A -> M B) :
  hoare P m Q -> (forall st, Q st -> R st) -> (forall a, hoare Q (k a) R) ->
  hoare P (bind m k) R.
Proof.
  intros Hm HQR Hk st Hst. unfold bind. specialize (Hm st Hst).
  destruct (m st) as [[a | e] st']; cbn in *.
  - apply Hk, Hm.
  - apply HQR, Hm.
Qed.

Lemma hoare_try_catch {A} P Q R (m : M A) (h : exn -> M A) :
  hoare P m Q -> (forall st, Q st -> R st) -> (forall e, hoare Q (h e) R) ->
  hoare P (try_catch m h) R.
Proof.
  intros Hm HQR Hh st Hst. unfold try_catch. specialize (Hm st Hst).
  destruct (m st) as [[a | e] st']; cbn in *.
  - apply HQR, Hm.
  - apply Hh, Hm.
Qed.

Lemma keeps_bind {A B} P (m : M A) (k : A -> M B) :
  hoare P m P -> (forall a, hoare P (k a) P) -> hoare P (bind m k) P.
Proof. intros Hm Hk. apply (hoare_bind P P P); auto. Qed.

Lemma keeps_try_catch {A} P (m : M A) (h : exn -> M A) :
  hoare P m P -> (forall e, hoare P (h e) P) -> hoare P (try_catch m h) P.
Proof. intros Hm Hh. apply (hoare_try_catch P P P); auto. Qed.

Lemma keeps_for_each {A} P (l : list A) (body : A -> M unit) :
  (forall x, hoare P (body x) P) -> hoare P (for_each l body) P.
Proof.
  intros Hbody. induction l as [| x l IH]; cbn [for_each].
  - apply hoare_ret.
  - apply keeps_bind; [apply Hbody | intros _; exact IH].
Qed.

Lemma hoare_for_index {A} (P : nat -> state -> Prop) (body : nat -> A -> M unit) (l : list A) :
  (forall i st, P i st -> P (S i) st) ->
  (forall i x, hoare (P i) (body i x) (P (S i))) ->
  forall i0, hoare (P i0) (for_index i0 l body) (fun st => exists n, P n st).
Proof.
  intros Hmono Hbody. induction l as [| x l IH]; intros i0; cbn [for_index].
  - intros st Hst. exists i0. exact Hst.
  - apply (hoare_bind _ (P (S i0))); [apply Hbody | eauto | intros _; apply IH].
Qed.

End HoareRules.

(** One step of a proof that a computation keeps an invariant. *)
Ltac keeps_step :=
  lazymatch goal with
  | |- hoare _ (bind _ _) _ => apply keeps_bind; [| intros ?]
  | |- hoare _ (try_catch _ _) _ => apply keeps_try_catch; [| intros ?]
  | |- hoare _ (ret _) _ => apply hoare_ret
  | |- hoare _ (throw _) _ => apply hoare_throw
  | |- hoare _ (lift _) _ => apply hoare_lift
  | |- hoare _ (gets _) _ => apply hoare_gets
  | |- hoare _ (for_each _ _) _ => apply keeps_for_each; intros ?
  | |- hoare _ (if ?b then _ else _) _ => destruct b
  | |- hoare _ (match ?x with _ => _ end) _ => destruct x
  end.

Create HintDb keeps.

Ltac keeps := repeat keeps_step; eauto with keeps.

(** ** What every stable invariant is kept by *)

Section Stable.
Context `{Runtime}.
Variable world : list (event * Res value) -> event -> Res value.
Variable I : state -> Prop.
Hypothesis HI : stable I.
Import Mapper Handler.

Lemma keeps_call ev : benign ev = true -> hoare I (call world ev) I.
Proof. intros Hev st Hst. cbn. apply (st_push I HI); assumption. Qed.

Lemma keeps_note ev : benign ev = true -> hoare I (note ev) I.
Proof. intros Hev st Hst. cbn. apply (st_push I HI); assumption. Qed.

Lemma keeps_count_total tbl n : hoare I (count_total tbl n) I.
Proof. apply hoare_modify. intros st Hst. apply (st_tables I HI), Hst. Qed.

Lemma keeps_count_updated tbl : hoare I (count_updated tbl) I.
Proof.
  apply hoare_modify. intros st Hst.
  apply (st_counts I HI); [reflexivity |]. apply (st_tables I HI), Hst.
Qed.

Lemma keeps_count_inserted tbl : hoare I (count_inserted tbl) I.
Proof.
  apply hoare_modify. intros st Hst.
  apply (st_counts I HI); [reflexivity |]. apply (st_tables I HI), Hst.
Qed.

Lemma keeps_set_keySpecs f : hoare I (modify (set_keySpecs f)) I.
Proof. apply hoare_modify. intros st Hst. apply (st_specs I HI), Hst. Qed.

Local Hint Resolve keeps_call keeps_note keeps_count_total keeps_count_updated
  keeps_count_inserted keeps_set_keySpecs : keeps.

Lemma keeps_typedGet type v rowCtx : hoare I (typedGet world type v rowCtx) I.
Proof. unfold typedGet. keeps. Qed.

Lemma keeps_resolveLookupId a maps specs provided :
  hoare I (resolveLookupId a maps specs provided) I.
Proof. unfold resolveLookupId. keeps. Qed.

Local Hint Resolve keeps_typedGet keeps_resolveLookupId : keeps.

Lemma keeps_mapEntry maps specs srcRow out m :
  hoare I (mapEntry world maps specs srcRow out m) I.
Proof. unfold mapEntry. keeps. Qed.

Lemma keeps_mapEntries maps specs srcRow ms : forall out,
  hoare I (mapEntries world maps specs srcRow out ms) I.
Proof.
  induction ms as [| m ms IH]; intros out; cbn [mapEntries].
  - apply hoare_ret.
  - apply keeps_bind; [apply keeps_mapEntry | intros out'; apply IH].
Qed.

Lemma keeps_mapRow g maps specs srcRow : hoare I (mapRow world g maps specs srcRow) I.
Proof. unfold mapRow. pose proof keeps_mapEntries. keeps. Qed.

Lemma keeps_beginTx mode : hoare I (beginTx world mode) I.
Proof. unfold beginTx. keeps. Qed.

Lemma keeps_assignTypedPath type path v : hoare I (assignTypedPath world type path v) I.
Proof. unfold assignTypedPath. keeps. Qed.

Lemma keeps_chunks_or_hang {A} (r : option (list (list A))) : hoare I (chunks_or_hang r) I.
Proof. unfold chunks_or_hang. keeps. Qed.

Lemma keeps_select_chunks idCol expr tbl chunks : forall out,
  hoare I (select_chunks world idCol expr tbl chunks out) I.
Proof.
  induction chunks as [| ch chunks IH]; intros out; cbn [select_chunks].
  - apply hoare_ret.
  - apply keeps_bind; [apply keeps_call; reflexivity | intros rows].
    apply keeps_bind; [apply hoare_lift | intros out'; apply IH].
Qed.

Local Hint Resolve keeps_mapRow keeps_beginTx keeps_assignTypedPath keeps_chunks_or_hang
  keeps_select_chunks : keeps.

Lemma keeps_selectIdsByKeys g spec keys : hoare I (selectIdsByKeys world g spec keys) I.
Proof. unfold selectIdsByKeys. keeps. Qed.

Local Hint Resolve keeps_selectIdsByKeys : keeps.

Lemma keeps_projectRows g alias mapped : hoare I (projectRows world g alias mapped) I.
Proof. unfold projectRows. keeps. Qed.

Lemma keeps_pragmas cfg : hoare I (pragmas world cfg) I.
Proof. unfold pragmas. keeps. Qed.

End Stable.

#[export] Hint Resolve keeps_call keeps_note keeps_count_total keeps_count_updated
  keeps_count_inserted keeps_set_keySpecs keeps_typedGet keeps_resolveLookupId
  keeps_mapRow keeps_beginTx keeps_assignTypedPath keeps_chunks_or_hang
  keeps_select_chunks keeps_selectIdsByKeys keeps_projectRows keeps_pragmas : keeps.

(** ** The group loop under an invariant *)

Section GroupLoop.
Context `{Runtime}.
Variable world : list (event * Res value) -> event -> Res value.
Import Mapper Handler.

Section OneGroup.
Variable cfg : RunConfig.
Variable gi : nat.
Variable g : Group.
(** [P] holds while the rows of the group are mapped and inserted, [Q]
    once its map is published. *)
Variables P Q : state -> Prop.
Hypothesis HP : stable P.
Hypothesis HQ : stable Q.
Hypothesis HPQ : forall st, P st -> Q st.
Hypothesis Hrows : row_stable gi (table g) P.
Hypothesis Hpub : forall alias map st, P st -> Q (publish gi alias map st).

Lemma keeps_execRow cols r : hoare P (execRow world cfg g cols r) P.
Proof.
  intros st Hst. unfold execRow, try_catch, bind at 1, call.
  set (params := map _ cols).
  destruct (world (log st) (EvStmtRun params)) as [v | e] eqn:Hw.
  - pose proof (rs_stmt_ok _ _ P Hrows params v st Hst) as Hok.
    destruct (String.eqb (conflict g) "replace");
      [| destruct (String.eqb (conflict g) "upsert")];
      cbn; (apply (st_counts P HP); [reflexivity |]); apply (st_tables P HP), Hok.
  - pose proof (rs_stmt_fail _ _ P Hrows params e st Hst) as Hf.
    unfold bind, count_error, modify. destruct (continueOnError cfg); exact Hf.
Qed.

(** The transaction scope of the chunks: either none ([off]), or [P] does
    not depend on the statements given to [db.run]. *)
Lemma keeps_execChunk txMode cols ch :
  txMode = "off" \/ ignores_run P ->
  hoare P (execChunk world cfg txMode g cols ch) P.
Proof.
  intros Htx. pose proof keeps_execRow as Hrow.
  assert (Hcommit : hoare P (commitTx world txMode) P).
  { destruct Htx as [-> | Hig]; [apply hoare_ret |].
    unfold commitTx. destruct (String.eqb txMode "off"); [apply hoare_ret |].
    apply keeps_bind; [| intros; apply hoare_ret].
    intros st Hst. apply Hig, Hst. }
  assert (Hrollback : hoare P (rollbackTx world txMode) P).
  { destruct Htx as [-> | Hig]; [apply hoare_ret |].
    unfold rollbackTx. destruct (String.eqb txMode "off"); [apply hoare_ret |].
    apply keeps_try_catch; [| intros; apply hoare_ret].
    apply keeps_bind; [| intros; apply hoare_ret].
    intros st Hst. apply Hig, Hst. }
  unfold execChunk. keeps.
Qed.

Lemma keeps_mapOne i row mapped : hoare P (mapOne world cfg gi g i row mapped) P.
Proof.
  intros st Hst. unfold mapOne, try_catch, bind at 1 2 3, gets, note.
  pose proof (rs_map _ _ P Hrows i st Hst) as Hst1.
  pose proof (keeps_mapRow world P HP g (ctxMaps st) (keySpecs st) row _ Hst1) as Hst2.
  unfold bind at 1.
  destruct (mapRow world g (ctxMaps st) (keySpecs st) row
              (push (EvMapRow gi i (ctxMaps st)) (Ok VUndefined) st)) as [[m | e] st2];
    cbn in Hst2 |- *; [exact Hst2 |].
  pose proof (rs_map_fail _ _ P Hrows i e st2 Hst2) as Hf.
  unfold bind, count_error, modify. destruct (continueOnError cfg); exact Hf.
Qed.

Lemma keeps_mapRows rowsIn : forall i mapped,
  hoare P (mapRows world cfg gi g i rowsIn mapped) P.
Proof.
  induction rowsIn as [| row rest IH]; intros i mapped; cbn [mapRows].
  - apply hoare_ret.
  - apply keeps_bind; [apply keeps_mapOne | intros mapped'; apply IH].
Qed.

Lemma hoare_buildKeyMap alias ks mapped :
  hoare P (buildKeyMap world gi g alias ks mapped) Q.
Proof.
  unfold buildKeyMap. destruct ks as [ks |]; [| now apply (hoare_conseq P _ P), hoare_ret].
  apply (hoare_bind P P Q); [keeps | exact HPQ | intros keys].
  apply (hoare_bind P P Q); [keeps | exact HPQ | intros map].
  apply (hoare_bind P Q Q); [apply hoare_modify; intros st; apply Hpub | auto | intros _].
  keeps.
Qed.

End OneGroup.

(** The body of the group loop, for a group [g0]: the hypotheses are on
    the group as the handler normalises it. *)
Lemma hoare_processGroup cfg gi g0 (P Q : state -> Prop) :
  stable P -> stable Q -> (forall st, P st -> Q st) ->
  row_stable gi (table g0) P ->
  (forall alias map st, P st -> Q (publish gi alias map st)) ->
  localTxMode cfg = "all" \/ ignores_run P ->
  hoare P (processGroup world cfg gi g0) Q.
Proof.
  intros HP HQ HPQ Hrows Hpub Htx. unfold processGroup.
  destruct (String.eqb (table g0) ""); [now apply (hoare_conseq P _ P), hoare_ret |].
  set (g := normGroup g0).
  apply (hoare_bind P P Q); [keeps | exact HPQ | intros sourceArr].
  apply (hoare_bind P P Q); [keeps | exact HPQ | intros _].
  apply (hoare_bind P P Q); [keeps | exact HPQ | intros _].
  apply (hoare_bind P P Q);
    [apply (keeps_mapRows cfg gi g P HP Hrows) | exact HPQ | intros mapped].
  destruct mapped as [| first mapped'].
  - destruct (Keys.normKeySpec g) as [k |]; [| now apply (hoare_conseq P _ P), hoare_ret].
    destruct (spec_selectMissing k); [| now apply (hoare_conseq P _ P), hoare_ret].
    apply hoare_modify. intros st. apply Hpub.
  - match goal with |- hoare _ (match ?cols with _ => _ end) _ => destruct cols as [| c cols'] end.
    + apply (hoare_conseq P _ P); [auto | exact HPQ | keeps].
    + apply (hoare_bind P P Q); [keeps | exact HPQ | intros chunks].
      apply (hoare_bind P P Q); [| exact HPQ | intros _].
      { apply keeps_for_each. intros ch.
        apply (keeps_execChunk cfg gi g P HP Hrows).
        destruct Htx as [-> | Hig]; [left; reflexivity | right; exact Hig]. }
      apply (hoare_bind P Q Q); [| auto | intros _; keeps].
      apply (hoare_buildKeyMap gi g P Q HP HQ HPQ Hpub).
Qed.

(** The handler, for a family of invariants indexed by the number of groups
    already processed. *)
Lemma hoare_handler cfg (P : nat -> state -> Prop) :
  (forall n, stable (P n)) ->
  (forall n st, P n st -> P (S n) st) ->
  (forall gi tbl, row_stable gi tbl (P gi)) ->
  (forall gi alias map st, P gi st -> P (S gi) (publish gi alias map st)) ->
  localTxMode cfg = "all" \/ (forall n, ignores_run (P n)) ->
  hoare (P 0) (handler world cfg) (fun st => exists n, P n st).
Proof.
  intros HP Hmono Hrows Hpub Htx.
  assert (Hex : stable (fun st => exists n, P n st)).
  { split.
    - intros ev r st Hev [n Hn]. exists n. now apply (st_push _ (HP n)).
    - intros f st [n Hn]. exists n. now apply (st_tables _ (HP n)).
    - intros f st [n Hn]. exists n. now apply (st_specs _ (HP n)).
    - intros f st Hf [n Hn]. exists n. now apply (st_counts _ (HP n)). }
  assert (Hin : forall st, P 0 st -> exists n, P n st) by eauto.
  unfold handler.
  apply (hoare_bind _ (P 0)); [pose proof (HP 0); keeps | exact Hin | intros dbPath].
  destruct dbPath; try (apply (hoare_conseq (P 0) _ (P 0)); [auto | exact Hin | apply hoare_throw]).
  destruct (String.eqb s ""); [apply (hoare_conseq (P 0) _ (P 0)); [auto | exact Hin | apply hoare_throw] |].
  apply (hoare_bind _ (P 0)); [pose proof (HP 0); keeps | exact Hin | intros _].
  apply (hoare_bind _ (P 0)); [pose proof (HP 0); keeps | exact Hin | intros _].
  apply (hoare_bind _ (P 0)); [pose proof (HP 0); keeps | exact Hin | intros _].
  apply (hoare_bind _ (fun st => exists n, P n st)); [| auto | intros _; keeps].
  apply hoare_for_index; [exact Hmono |]. intros gi g0.
  apply hoare_processGroup; auto.
  destruct Htx as [Hall | Hig]; [left; exact Hall | right; apply Hig].
Qed.

End GroupLoop.

(** ** The three invariants of a run *)

Section Invariants.
Import Handler.

Lemma benign_not_end ev : benign ev = true -> is_end ev = false.
Proof. destruct ev; cbn; try reflexivity. now intros ->%negb_true_iff. Qed.

Lemma no_end_push ev r st : is_end ev = false -> no_end st -> no_end (push ev r st).
Proof.
  intros Hev Hst ev' r' Hin. cbn in Hin.
  apply elem_of_cons in Hin as [[= -> ->] | Hin]; [exact Hev | exact (Hst _ _ Hin)].
Qed.

Lemma stable_no_end : stable no_end.
Proof.
  split.
  - intros ev r st Hev. apply no_end_push, benign_not_end, Hev.
  - intros f st Hst. exact Hst.
  - intros f st Hst. exact Hst.
  - intros f st _ Hst. exact Hst.
Qed.

Lemma row_stable_no_end gi tbl : row_stable gi tbl no_end.
Proof.
  split; intros; try apply (no_end_push _ _ _ eq_refl); try assumption;
    unfold bump_errors, no_end; cbn;
    intros ev' r' Hin; apply elem_of_cons in Hin as [[= -> ->] | Hin]; eauto.
Qed.

Lemma failures_cons x l :
  failures (x :: l) = (if row_failure x then S (failures l) else failures l).
Proof.
  unfold failures. rewrite filter_cons.
  destruct (row_failure x); [rewrite decide_True by reflexivity
                            | rewrite decide_False by discriminate]; reflexivity.
Qed.

Lemma counted_push ev r st :
  row_failure (ev, r) = false -> counted st -> counted (push ev r st).
Proof.
  unfold counted. intros Hev Hst.
  change (errors (totals st) = failures ((ev, r) :: log st)).
  now rewrite failures_cons, Hev.
Qed.

Lemma counted_push_failure tbl ev r st :
  row_failure (ev, r) = true -> counted st -> counted (bump_errors tbl (push ev r st)).
Proof.
  unfold counted. intros Hev Hst.
  change (S (errors (totals st)) = failures ((ev, r) :: log st)).
  rewrite failures_cons, Hev. now f_equal.
Qed.

Lemma benign_not_failure ev r : benign ev = true -> row_failure (ev, r) = false.
Proof. destruct ev; cbn; try reflexivity; discriminate. Qed.

Lemma stable_counted : stable counted.
Proof.
  split.
  - intros ev r st Hev. apply counted_push, benign_not_failure, Hev.
  - intros f st Hst. exact Hst.
  - intros f st Hst. exact Hst.
  - intros f st Hf Hst. unfold counted in *. cbn. now rewrite Hf.
Qed.

Lemma row_stable_counted gi tbl : row_stable gi tbl counted.
Proof.
  split; intros.
  - now apply counted_push.
  - now apply counted_push_failure.
  - now apply counted_push.
  - now apply counted_push_failure.
Qed.

Lemma ignores_run_counted : ignores_run counted.
Proof. intros sql r st. now apply counted_push. Qed.

Lemma ordered_push n ev r st :
  (forall gi i maps, ev = EvMapRow gi i maps -> published_before gi maps) ->
  ordered n st -> ordered n (push ev r st).
Proof.
  intros Hev [Hmaps Hlog]. split; [exact Hmaps |].
  intros gi i maps r' Hin. cbn in Hin.
  apply elem_of_cons in Hin as [[= <- _] | Hin]; [now apply (Hev gi i) | eauto].
Qed.

Lemma stable_ordered n : stable (ordered n).
Proof.
  split.
  - intros ev r st Hev. apply ordered_push. intros gi i maps ->. discriminate Hev.
  - intros f st Hst. exact Hst.
  - intros f st Hst. exact Hst.
  - intros f st _ Hst. exact Hst.
Qed.

Lemma ordered_mono n st : ordered n st -> ordered (S n) st.
Proof.
  intros [Hmaps Hlog]. split; [| exact Hlog].
  intros alias ctx Hctx. specialize (Hmaps alias ctx Hctx). lia.
Qed.

Lemma row_stable_ordered gi tbl : row_stable gi tbl (ordered gi).
Proof.
  split; intros.
  - apply ordered_push; [discriminate | assumption].
  - apply (ordered_push gi (EvStmtRun p) (Throw e) st); [discriminate | assumption].
  - apply ordered_push; [| assumption]. intros gi' i' maps [= <- _ <-]. apply H.
  - apply (ordered_push gi (EvMapFailed gi i e) (Ok VUndefined) st); [discriminate | assumption].
Qed.

Lemma ordered_publish gi alias map st :
  ordered gi st -> ordered (S gi) (publish gi alias map st).
Proof.
  intros [Hmaps Hlog]. split; [| exact Hlog].
  intros a ctx. cbn. rewrite lookup_insert. case_decide.
  - intros [= <-]. cbn. lia.
  - intros Hctx. specialize (Hmaps a ctx Hctx). lia.
Qed.

Lemma ignores_run_ordered n : ignores_run (ordered n).
Proof. intros sql r st. apply ordered_push. discriminate. Qed.

End Invariants.

(** ** Whole runs *)

Section RunFacts.
Context `{Runtime}.
Variable world : list (event * Res value) -> event -> Res value.
Import Mapper Handler.

(** The shape of a run that returns a summary. *)
Lemma handler_ok cfg st0 s st' :
  handler world cfg st0 = (Ok s, st') ->
  exists p st1 st2 st3 st4,
    typedGet world (or_default (dbPathType cfg) "str") (dbPath cfg) (Some VNull) st0
    = (Ok (VStr p), st1)
    /\ pragmas world cfg (push (EvOpen p) (Ok VUndefined) st1) = (Ok tt, st2)
    /\ (if String.eqb (localTxMode cfg) "all" then beginTx world "all" else ret tt) st2
       = (Ok tt, st3)
    /\ for_index 0 (groups cfg) (processGroup world cfg) st3 = (Ok tt, st4)
    /\ st' = push EvClose (Ok VUndefined) st4
    /\ s = {| ok := Nat.eqb (errors (totals st')) 0;
              counts := totals st'; tables := byTable st' |}.
Proof.
  unfold handler. unfold bind at 1.
  destruct (typedGet world _ _ _ st0) as [[dbp | e] st1] eqn:Hget; [| discriminate].
  destruct dbp as [| | | | p | | |]; try discriminate.
  destruct (String.eqb p ""); [discriminate |].
  unfold bind at 1, note at 1. unfold bind at 1.
  destruct (pragmas world cfg _) as [[[] | e] st2] eqn:Hpr; [| discriminate].
  unfold bind at 1.
  destruct ((if String.eqb (localTxMode cfg) "all" then beginTx world "all" else ret tt) st2)
    as [[[] | e] st3] eqn:Hb; [| discriminate].
  unfold bind at 1.
  destruct (for_index 0 (groups cfg) (processGroup world cfg) st3) as [[[] | e] st4] eqn:Hg;
    [| discriminate].
  unfold bind, note, gets, ret. intros [= <- <-].
  exists p, st1, st2, st3, st4. repeat split; assumption || reflexivity.
Qed.

(** The entries of the log are never removed. *)
Lemma stable_logged x : stable (logged x).
Proof.
  split; intros; unfold logged in *; cbn; try assumption.
  apply elem_of_cons. now right.
Qed.

Lemma row_stable_logged x gi tbl : row_stable gi tbl (logged x).
Proof.
  split; intros; unfold logged in *; cbn; apply elem_of_cons; now right.
Qed.

Lemma groups_keep_log cfg x st :
  localTxMode cfg = "all" -> logged x st ->
  logged x (snd (for_index 0 (groups cfg) (processGroup world cfg) st)).
Proof.
  intros Hall Hx.
  destruct (hoare_for_index (fun _ => logged x) (processGroup world cfg) (groups cfg)
              (fun _ _ Hst => Hst)
              (fun gi g0 => hoare_processGroup world cfg gi g0 _ _ (stable_logged x)
                              (stable_logged x) (fun _ Hst => Hst)
                              (row_stable_logged x gi _) (fun _ _ _ Hst => Hst)
                              (or_introl Hall))
              0 st Hx) as [_ Hend].
  exact Hend.
Qed.

(** C1 (what the code does).  In a run with [txMode = all] no [COMMIT]
    and no [ROLLBACK] is ever given to the driver, whether the run returns a
    summary or throws; and a run that returns a summary has opened the
    transaction with [BEGIN] and closed the connection.  The whole-run
    scope is left open at the end of the run. *)
Theorem whole_run_scope_never_ended cfg :
  localTxMode cfg = "all" ->
  (forall ev r, (ev, r) ∈ log (snd (run world cfg)) ->
     ev <> EvRun "COMMIT" /\ ev <> EvRun "ROLLBACK")
  /\ (forall s, fst (run world cfg) = Ok s ->
      (exists v, (EvRun "BEGIN", Ok v) ∈ log (snd (run world cfg)))
      /\ (EvClose, Ok VUndefined) ∈ log (snd (run world cfg))).
Proof.
  intros Hall. split.
  - intros ev r Hin.
    destruct (hoare_handler world cfg (fun _ => no_end)
                (fun _ => stable_no_end) (fun _ _ Hst => Hst)
                (fun gi tbl => row_stable_no_end gi tbl)
                (fun _ _ _ _ Hst => Hst) (or_introl Hall) init) as [_ Hend].
    { intros ev' r' Hin'. cbn in Hin'. inversion Hin'. }
    specialize (Hend ev r Hin). split; intros ->; discriminate Hend.
  - intros s Hs. unfold run in *.
    destruct (handler world cfg init) as [r st'] eqn:Hrun. cbn in Hs. subst r.
    destruct (handler_ok _ _ _ _ Hrun) as (p & st1 & st2 & st3 & st4 & _ & _ & Hb & Hg & -> & _).
    rewrite Hall in Hb. cbn [String.eqb Ascii.eqb Bool.eqb] in Hb.
    unfold beginTx in Hb. cbn [String.eqb Ascii.eqb Bool.eqb] in Hb.
    unfold bind, call, ret in Hb.
    destruct (world (log st2) (EvRun "BEGIN")) as [v | e] eqn:Hw; [| discriminate].
    injection Hb as <-. cbn [snd]. split.
    + exists v. cbn. apply elem_of_cons. right.
      pose proof (groups_keep_log cfg (EvRun "BEGIN", Ok v)
                    (push (EvRun "BEGIN") (Ok v) st2) Hall) as Hk.
      rewrite Hg in Hk. apply Hk. unfold logged. cbn. apply elem_of_cons. now left.
    + cbn. apply elem_of_cons. now left.
Qed.

(** C4.  Whenever a row of the group at index [gi] is mapped, every
    context map handed to [mapRow] (the only maps its lookups read) was
    published during the processing of a group declared strictly before
    [gi]. *)
Theorem lookups_see_earlier_groups_only cfg gi i maps r alias ctx :
  (EvMapRow gi i maps, r) ∈ log (snd (run world cfg)) ->
  maps !! alias = Some ctx ->
  publisher ctx < gi.
Proof.
  intros Hin Hctx.
  destruct (hoare_handler world cfg ordered stable_ordered ordered_mono
              (fun gi tbl => row_stable_ordered gi tbl)
              (fun gi alias map st => ordered_publish gi alias map st)
              (or_intror ignores_run_ordered) init) as [n [_ Hlog]].
  { split.
    - intros a c. change ((∅ : gmap string Ctx) !! a = Some c -> publisher c < 0).
      rewrite lookup_empty. discriminate.
    - intros ? ? ? ? Hin'. inversion Hin'. }
  exact (Hlog gi i maps r Hin alias ctx Hctx).
Qed.

(** C10.  In the summary of a run that returns one, [ok] is true exactly
    when the run-wide error counter is zero, and that counter is the number
    of row failures of the run (a mapping that threw, a statement that was
    rejected): a failure that [continueOnError] suppressed makes [ok]
    false. *)
Theorem summary_ok_iff_no_errors cfg s :
  fst (run world cfg) = Ok s ->
  (ok s = true <-> errors (counts s) = 0)
  /\ errors (counts s) = failures (log (snd (run world cfg)))
  /\ (forall x, x ∈ log (snd (run world cfg)) -> row_failure x = true -> ok s = false).
Proof.
  intros Hs.
  destruct (hoare_handler world cfg (fun _ => counted)
              (fun _ => stable_counted) (fun _ _ Hst => Hst)
              (fun gi tbl => row_stable_counted gi tbl)
              (fun _ _ _ _ Hst => Hst) (or_intror (fun _ => ignores_run_counted)) init)
    as [_ Hend]; [reflexivity |].
  unfold run in *. destruct (handler world cfg init) as [r st'] eqn:Hrun.
  cbn [fst snd] in *. subst r.
  destruct (handler_ok _ _ _ _ Hrun) as (p & st1 & st2 & st3 & st4 & _ & _ & _ & _ & Hst' & ->).
  cbn [ok counts]. unfold counted in Hend.
  split; [apply Nat.eqb_eq | split; [exact Hend |]].
  intros x Hx Hfail. apply Nat.eqb_neq. rewrite Hend. unfold failures.
  assert (Hin : x ∈ filter (fun x => row_failure x = true) (log st'))
    by (apply list_elem_of_filter; auto).
  destruct (filter _ (log st')); [inversion Hin | cbn; lia].
Qed.

End RunFacts.

(** A run with [txMode = all]: the transaction is opened, the rows are
    inserted, and the connection is closed with the transaction open. *)
Lemma whole_run_scope_never_ended_witness :
  let cfg := Sample.config "all" false
               [Sample.autoGroup "Departments" "departments" "none" [] [] None] in
  Sample.driver_trace (snd (Handler.run Sample.world cfg))
  = ["BEGIN";
     "prepare INSERT INTO " +:+ quoted "Departments" +:+ " (" +:+ quoted "code" +:+ ") VALUES (?)";
     "step"; "step"; "finalize"; "close"]
  /\ (forall ev r, (ev, r) ∈ log (snd (Handler.run Sample.world cfg)) ->
        ev <> EvRun "COMMIT" /\ ev <> EvRun "ROLLBACK").
Proof.
  intros cfg. split.
  - vm_compute. reflexivity.
  - exact (proj1 (whole_run_scope_never_ended Sample.world cfg eq_refl)).
Defined.

(** The same run when a statement is rejected and the run aborts: no
    [ROLLBACK] is issued either. *)
Example whole_run_scope_abort :
  let cfg := Sample.config "all" false
               [Sample.autoGroup "Codes" "mixed" "none" [] [] None] in
  fst (Handler.run Sample.world_reject_null cfg)
  = Throw (External "SQLITE_CONSTRAINT: NOT NULL constraint failed")
  /\ Sample.driver_trace (snd (Handler.run Sample.world_reject_null cfg))
     = ["BEGIN";
        "prepare INSERT INTO " +:+ quoted "Codes" +:+ " (" +:+ quoted "code" +:+ ") VALUES (?)";
        "step"; "step"].
Proof. split; vm_compute; reflexivity. Qed.

(** The departments, then the employees that refer to them: the row of the
    second group is mapped with the map that the first group published. *)
Lemma lookups_see_earlier_groups_only_witness :
  let cfg := Sample.config "perTable" false
               [Sample.autoGroup "Departments" "departments" "upsert" ["code"] []
                  (Some (Sample.keyOn "byColumns" ["code"] ""));
                Sample.mappedGroup "Employees" "employees"
                  [Sample.lookupEntry "dept_id" "Departments" "dept_code" true]] in
  let ctx := {| ctx_map := <["HR" := VStr "#HR"]> (<["ENG" := VStr "#ENG"]> ∅);
                publisher := 0 |} in
  let maps : gmap string Ctx := <["Departments" := ctx]> ∅ in
  (EvMapRow 1 0 maps, Ok VUndefined) ∈ log (snd (Handler.run Sample.world cfg))
  /\ publisher ctx < 1.
Proof.
  intros cfg ctx maps.
  assert (Hin : (EvMapRow 1 0 maps, Ok VUndefined) ∈ log (snd (Handler.run Sample.world cfg))).
  { apply list_elem_of_In. vm_compute. tauto. }
  split; [exact Hin |].
  apply (lookups_see_earlier_groups_only Sample.world cfg 1 0 maps (Ok VUndefined)
           "Departments" ctx Hin).
  vm_compute. reflexivity.
Defined.

(** The same two groups in the reverse order: the strict lookup of the
    employees finds no map and the run aborts. *)
Example reversed_order_lookup_fails :
  let cfg := Sample.config "perTable" false
               [Sample.mappedGroup "Employees" "employees"
                  [Sample.lookupEntry "dept_id" "Departments" "dept_code" true];
                Sample.autoGroup "Departments" "departments" "upsert" ["code"] []
                  (Some (Sample.keyOn "byColumns" ["code"] ""))] in
  fst (Handler.run Sample.world cfg)
  = Throw (Error ("lookup failed for group " +:+ Util.dq +:+ "Departments" +:+ Util.dq
                  +:+ " key=ENG")).
Proof. vm_compute. reflexivity. Qed.

(** A run that goes on after a rejected row: the summary is returned with
    [ok] false. *)
Lemma summary_ok_iff_no_errors_witness :
  let cfg := Sample.config "perTable" true
               [Sample.autoGroup "Codes" "mixed" "none" [] [] None] in
  let s := {| Handler.ok := false;
              Handler.counts := {| inserted := 1; updated := 0; errors := 1; skipped := 0 |};
              Handler.tables := <["Codes" := {| t_inserted := 1; t_updated := 0; t_errors := 1;
                                                t_skipped := 0; t_total := 2 |}]> ∅ |} in
  fst (Handler.run Sample.world_reject_null cfg) = Ok s
  /\ (Handler.ok s = true <-> errors (Handler.counts s) = 0).
Proof.
  intros cfg s.
  assert (Hrun : fst (Handler.run Sample.world_reject_null cfg) = Ok s)
    by (vm_compute; reflexivity).
  split; [exact Hrun |].
  exact (proj1 (summary_ok_iff_no_errors Sample.world_reject_null cfg s Hrun)).
Defined.

(** ** Errors of the statement builder, and the key-map builder *)

Section ChunkFacts.
Context `{Runtime}.
Variable world : list (event * Res value) -> event -> Res value.
Import Mapper Handler.

Lemma rollbackTx_returns txMode st : fst (rollbackTx world txMode st) = Ok tt.
Proof.
  unfold rollbackTx. destruct (String.eqb txMode "off"); [reflexivity |].
  unfold try_catch, bind, call, ret.
  destruct (world (log st) (EvRun "ROLLBACK")); reflexivity.
Qed.

Lemma rollbackTx_counters txMode st :
  totals (snd (rollbackTx world txMode st)) = totals st.
Proof.
  unfold rollbackTx. destruct (String.eqb txMode "off"); [reflexivity |].
  unfold try_catch, bind, call, ret.
  destruct (world (log st) (EvRun "ROLLBACK")); reflexivity.
Qed.

Lemma beginTx_counters txMode st :
  totals (snd (beginTx world txMode st)) = totals st.
Proof.
  unfold beginTx. destruct (String.eqb txMode "off"); [reflexivity |].
  unfold bind, call, ret.
  destruct (world (log st) (EvRun "BEGIN")); reflexivity.
Qed.

(** C2 (as amended).  When the statement builder throws for a chunk (an
    invalid identifier), the chunk's handler rolls the chunk's scope back
    and then follows [continueOnError]: the error is thrown on when it is
    false, and swallowed when it is true.  Nothing is prepared or executed
    for the chunk, and no error counter is incremented. *)
Theorem invalid_identifier_follows_continueOnError cfg txMode g cols ch st st1 e :
  Sql.buildInsertSQL g cols = Throw e ->
  beginTx world txMode st = (Ok tt, st1) ->
  execChunk world cfg txMode g cols ch st
  = (if continueOnError cfg then Ok tt else Throw e, snd (rollbackTx world txMode st1))
  /\ totals (snd (execChunk world cfg txMode g cols ch st)) = totals st.
Proof.
  intros Hsql Hbegin.
  assert (Heq : execChunk world cfg txMode g cols ch st
                = (if continueOnError cfg then Ok tt else Throw e,
                   snd (rollbackTx world txMode st1))).
  { unfold execChunk. unfold bind at 1. rewrite Hbegin.
    unfold try_catch. unfold bind at 1, lift. rewrite Hsql.
    unfold bind. pose proof (rollbackTx_returns txMode st1) as Hr.
    destruct (rollbackTx world txMode st1) as [r st2]. cbn in Hr. subst r. cbn [snd].
    destruct (continueOnError cfg); reflexivity. }
  split; [exact Heq |].
  rewrite Heq. cbn [snd]. rewrite rollbackTx_counters.
  pose proof (beginTx_counters txMode st) as Hb. rewrite Hbegin in Hb. exact Hb.
Qed.

(** C5 (as amended).  For a KeySpec of mode [byTemplate] whose keys can be
    derived, the key-map builder issues no [SELECT]: it warns, publishes an
    empty map under the alias, and writes that empty map to the sink when a
    return path is configured.  While this empty map is the one published
    under the alias, a lookup against the alias answers [null]. *)
Theorem byTemplate_publishes_empty_map gi g alias ks mapped keys st :
  spec_mode ks = "byTemplate" ->
  Util.mapM (fun r => Keys.keyOfMappedRow r (Some ks)) mapped = Ok keys ->
  let st1 := publish gi alias ∅
               (push (EvWarn (warn_not_byColumns alias)) (Ok VUndefined) st) in
  buildKeyMap world gi g alias (Some ks) mapped st
  = (if String.eqb (spec_returnPath ks) "" then ret tt
     else assignTypedPath world "flow" (spec_returnPath ks) (VObj [])) st1
  /\ ctxMaps st1 !! alias = Some {| ctx_map := ∅; publisher := gi |}
  /\ (forall maps specs provided key st',
        maps !! alias = Some {| ctx_map := ∅; publisher := gi |} ->
        Keys.composeKeyWithSpec (specs !! alias) provided
          (from_option spec_separator "" (specs !! alias)) = Ok key ->
        resolveLookupId alias maps specs provided st' = (Ok VNull, st')).
Proof.
  intros Hmode Hkeys st1. split; [| split].
  - unfold buildKeyMap, byColumnsWithColumns. rewrite Hmode.
    cbn [String.eqb Ascii.eqb Bool.eqb andb].
    destruct (negb (String.eqb (spec_template ks) "")); unfold bind at 1, lift, ret;
      rewrite ?Hkeys; unfold bind at 1, note; unfold bind at 1, modify;
      fold st1; rewrite map_to_list_empty; reflexivity.
  - unfold st1, publish. cbn. apply lookup_insert_eq.
  - intros maps specs provided key st' Hmaps Hkey.
    unfold resolveLookupId. rewrite Hmaps. unfold bind, lift, ret. rewrite Hkey.
    cbn [ctx_map]. rewrite lookup_empty. reflexivity.
Qed.

End ChunkFacts.

(** A row with an empty column name, with [continueOnError]: the invalid
    identifier is swallowed, the run returns a summary that counts no
    error, and nothing was inserted. *)
Lemma invalid_identifier_suppressed_counterexample :
  let g := Sample.autoGroup "Odd" "odd" "none" [] [] None in
  let cfg := Sample.config "perTable" true [g] in
  Sql.buildInsertSQL (Handler.normGroup g) [""] = Throw (Error "Invalid identifier: ")
  /\ fst (Handler.run Sample.world cfg)
     = Ok {| Handler.ok := true;
             Handler.counts := {| inserted := 0; updated := 0; errors := 0; skipped := 0 |};
             Handler.tables := <["Odd" := {| t_inserted := 0; t_updated := 0; t_errors := 0;
                                             t_skipped := 0; t_total := 1 |}]> ∅ |}
  /\ Sample.driver_trace (snd (Handler.run Sample.world cfg)) = ["BEGIN"; "ROLLBACK"; "close"].
Proof. intros g cfg. repeat split; vm_compute; reflexivity. Qed.

Lemma invalid_identifier_follows_continueOnError_witness :
  let g := Handler.normGroup (Sample.autoGroup "Odd" "odd" "none" [] [] None) in
  let row := VObj [("", VStr "x")] in
  fst (Handler.execChunk Sample.world (Sample.config "perTable" false [g]) "perTable"
         g [""] [row] init)
  = Throw (Error "Invalid identifier: ")
  /\ fst (Handler.execChunk Sample.world (Sample.config "perTable" true [g]) "perTable"
            g [""] [row] init)
     = Ok tt.
Proof.
  intros g row. split.
  - rewrite (proj1 (invalid_identifier_follows_continueOnError Sample.world
                      (Sample.config "perTable" false [g]) "perTable" g [""] [row] init _
                      (Error "Invalid identifier: ") eq_refl eq_refl)).
    reflexivity.
  - rewrite (proj1 (invalid_identifier_follows_continueOnError Sample.world
                      (Sample.config "perTable" true [g]) "perTable" g [""] [row] init _
                      (Error "Invalid identifier: ") eq_refl eq_refl)).
    reflexivity.
Defined.

(** Two groups on the same table, the first with a [byTemplate] KeySpec and
    the second with a [byColumns] one, then a group that looks up the
    alias: the lookup answers the identifier selected by the second
    group. *)
Lemma byTemplate_alias_republished_counterexample :
  let cfg := Sample.config "perTable" false
               [Sample.autoGroup "T" "departments" "none" [] []
                  (Some (Sample.keyOn "byTemplate" [] "{{code}}"));
                Sample.autoGroup "T" "departments" "none" [] []
                  (Some (Sample.keyOn "byColumns" ["code"] ""));
                Sample.mappedGroup "Employees" "employees"
                  [Sample.lookupEntry "dept_id" "T" "dept_code" true]] in
  let st := snd (Handler.run Sample.world cfg) in
  Sample.warnings st = [Handler.warn_not_byColumns "T"]
  /\ Sample.bound st
     = [[VStr "HR"]; [VStr "ENG"]; [VStr "HR"]; [VStr "ENG"]; [VStr "#ENG"]].
Proof. intros cfg st. split; vm_compute; reflexivity. Qed.

Lemma byTemplate_publishes_empty_map_witness :
  let g := Sample.autoGroup "T" "departments" "none" [] []
             (Some (Sample.keyOn "byTemplate" [] "{{code}}")) in
  let ks := {| spec_alias := "T"; spec_mode := "byTemplate"; spec_columns := [];
               spec_template := "{{code}}"; spec_jsonata := ""; spec_separator := "|";
               spec_selectMissing := false; spec_returnPath := ""; spec_idColumn := "id" |} in
  let rows := [VObj [("code", VStr "HR")]; VObj [("code", VStr "ENG")]] in
  Keys.normKeySpec g = Some ks
  /\ Handler.buildKeyMap Sample.world 0 g "T" (Some ks) rows init
     = (Ok tt, Handler.publish 0 "T" ∅
                 (push (EvWarn (Handler.warn_not_byColumns "T")) (Ok VUndefined) init)).
Proof.
  intros g ks rows. split; [reflexivity |].
  exact (proj1 (byTemplate_publishes_empty_map Sample.world 0 g "T" ks rows ["HR"; "ENG"] init
                  eq_refl eq_refl)).
Defined.

(* ===================================================================== *)
(** * Further properties of the code *)
(* ===================================================================== *)

Import Readback.

(** ** Identifier quoting *)

Section QuotingFacts.
Context `{Runtime}.
Import Util.

Lemma unquote_body_double_quotes (s : string) :
  unquote_body (double_quotes s +:+ dq) = Some s.
Proof.
  induction s as [| c s IH]; [reflexivity |].
  cbn [double_quotes]. destruct (Ascii.eqb c quote_char) eqn:Ec; simpl;
    rewrite ?Ec; simpl in IH; rewrite IH; reflexivity.
Qed.

(** X1.  [qid] accepts exactly the non-empty strings, and the name can be
    read back from the identifier it returns: the outer quotes removed and
    the doubled quotes halved give the name again.  Two names with the same
    quoted identifier are therefore the same name. *)
Theorem qid_reads_back (name : value) (q : string) :
  qid name = Ok q ->
  exists s, name = VStr s /\ s <> "" /\ unquote q = Some s
            /\ forall s', qid (VStr s') = Ok q -> s' = s.
Proof.
  assert (Hback : forall t r, qid (VStr t) = Ok r -> t <> "" /\ unquote r = Some t).
  { intros t r. unfold qid. destruct (String.eqb_spec t ""); [discriminate |].
    intros [= <-]. split; [assumption |].
    change (unquote_body (double_quotes t +:+ dq) = Some t).
    apply unquote_body_double_quotes. }
  intros Hq. destruct name as [| | | | s | | |]; try discriminate Hq.
  destruct (Hback s q Hq) as [Hne Hun].
  exists s. repeat split; try assumption.
  intros s' Hq'. destruct (Hback s' q Hq') as [_ Hun']. congruence.
Qed.

End QuotingFacts.

(** A name that holds a double quote. *)
Lemma qid_reads_back_witness :
  let name := "we" +:+ Util.dq +:+ "ird" in
  Util.qid (VStr name) = Ok (Util.dq +:+ "we" +:+ Util.dq +:+ Util.dq +:+ "ird" +:+ Util.dq)
  /\ exists s, VStr name = VStr s /\ s <> ""
               /\ unquote (Util.dq +:+ "we" +:+ Util.dq +:+ Util.dq +:+ "ird" +:+ Util.dq) = Some s
               /\ forall s', Util.qid (VStr s')
                             = Ok (Util.dq +:+ "we" +:+ Util.dq +:+ Util.dq +:+ "ird" +:+ Util.dq)
                             -> s' = s.
Proof.
  intros name. split; [reflexivity |].
  apply (qid_reads_back (VStr name)). reflexivity.
Defined.

(** ** The statement builder: failures and the plain strategies *)

Section MoreSqlFacts.
Context `{Runtime}.
Import Util Sql.

Lemma qid_cases (c : string) :
  (c <> "" /\ qid (VStr c) = Ok (quoted c)) \/ (c = "" /\ qid (VStr c) = Throw bad_name).
Proof.
  destruct (String.eqb_spec c "") as [-> | Hc]; [right; split; reflexivity |].
  left. split; [assumption | now apply qid_nonempty].
Qed.

Lemma mapM_names_cases {B} (f : string -> Res B) (g : string -> B) (l : list string) :
  (forall c, c <> "" -> f c = Ok (g c)) -> f "" = Throw bad_name ->
  (Forall (fun c => c <> "") l /\ mapM f l = Ok (map g l))
  \/ (~ Forall (fun c => c <> "") l /\ mapM f l = Throw bad_name).
Proof.
  intros Hok Hbad. induction l as [| c l IH].
  - left. split; [constructor | reflexivity].
  - cbn [mapM map]. destruct (String.eqb_spec c "") as [-> | Hc].
    + right. rewrite Hbad. split; [| reflexivity].
      intros Hall. inversion Hall; congruence.
    + rewrite (Hok c Hc). cbn [rbind]. destruct IH as [[Hall ->] | [Hnot ->]].
      * left. split; [constructor; assumption | reflexivity].
      * right. split; [| reflexivity]. intros Hall. inversion Hall; contradiction.
Qed.

Lemma qids_cases (l : list string) :
  (Forall (fun c => c <> "") l /\ qids l = Ok (map quoted l))
  \/ (~ Forall (fun c => c <> "") l /\ qids l = Throw bad_name).
Proof.
  apply (mapM_names_cases (fun c => qid (VStr c)) quoted).
  - intros c Hc. now apply qid_nonempty.
  - reflexivity.
Qed.

Lemma buildUpsert_cases keys updateCols :
  ((filter_truthy keys <> [] -> Forall (fun c => c <> "") updateCols)
   /\ exists tail, buildUpsert keys updateCols = Ok tail)
  \/ (~ (filter_truthy keys <> [] -> Forall (fun c => c <> "") updateCols)
      /\ buildUpsert keys updateCols = Throw bad_name).
Proof.
  unfold buildUpsert. pose proof (filter_truthy_nonempty keys) as Hk.
  destruct (filter_truthy keys) as [| k0 ks].
  - left. split; [congruence | eauto].
  - rewrite (qids_nonempty _ Hk). cbn [rbind].
    destruct updateCols as [| u us].
    + left. split; [constructor | eauto].
    + destruct (mapM_names_cases
                  (fun c => let? a := qid (VStr c) in let? b := qid (VStr c) in
                            Ok (a +:+ "=excluded." +:+ b))
                  (fun c => quoted c +:+ "=excluded." +:+ quoted c) (u :: us))
        as [[Hall ->] | [Hnot ->]].
      * intros c Hc. now rewrite (qid_nonempty c Hc).
      * reflexivity.
      * left. split; [auto | cbn; eauto].
      * right. split; [| reflexivity]. intros Himp. apply Hnot, Himp. discriminate.
Qed.

(** X2.  [buildInsertSQL] returns a statement exactly when the names it
    quotes are not empty: the table, every column, and, for [upsert] with at
    least one key, every update column.  When it throws, the error is
    [Invalid identifier: ] for the empty name. *)
Theorem buildInsertSQL_fails_on_empty_names (g : Group) (cols : list string) :
  ((exists sql, buildInsertSQL g cols = Ok sql) <-> valid_names g cols)
  /\ (forall e, buildInsertSQL g cols = Throw e -> e = bad_name).
Proof.
  unfold buildInsertSQL, valid_names.
  destruct (qid_cases (table g)) as [[Ht ->] | [Ht ->]]; cbn [rbind];
    [| split; [split; [intros [? [=]] | tauto] | now intros e [= <-]]].
  destruct (qids_cases cols) as [[Hc ->] | [Hc ->]]; cbn [rbind];
    [| split; [split; [intros [? [=]] | tauto] | now intros e [= <-]]].
  destruct (String.eqb_spec (conflict g) "upsert") as [Hu | Hu].
  - destruct (buildUpsert_cases (upsertKeys g) (updateColumns g))
      as [[Himp [tail ->]] | [Hnot ->]]; cbn [rbind].
    + split; [split; eauto | discriminate].
    + split; [split; [intros [? [=]] | intros (_ & _ & Himp); exfalso; auto]
             | now intros e [= <-]].
  - split; [split; [intros _; repeat split; tauto | eauto] | discriminate].
Qed.

(** X3.  For the strategies other than [upsert] and valid names, the
    statement is [INSERT INTO], [INSERT OR IGNORE INTO] or
    [INSERT OR REPLACE INTO] the quoted table, with the quoted columns in
    order and one placeholder per column; it has no [ON CONFLICT] clause. *)
Theorem insert_statement_text (g : Group) (cols : list string) :
  conflict g <> "upsert" ->
  table g <> "" ->
  Forall (fun c => c <> "") cols ->
  buildInsertSQL g cols
  = Ok (insert_verb (conflict g) +:+ "INTO " +:+ quoted (table g) +:+ " ("
        +:+ join ", " (map quoted cols) +:+ ") VALUES ("
        +:+ join ", " (map (fun _ => "?") cols) +:+ ")").
Proof.
  intros Hu Ht Hcols. unfold buildInsertSQL, insert_verb.
  rewrite (qid_nonempty _ Ht). cbn [rbind].
  rewrite (qids_nonempty _ Hcols). cbn [rbind].
  destruct (String.eqb_spec (conflict g) "upsert"); [contradiction |].
  destruct (String.eqb_spec (conflict g) "ignore") as [Hi | Hi].
  - rewrite Hi. reflexivity.
  - destruct (String.eqb (conflict g) "replace"); reflexivity.
Qed.

End MoreSqlFacts.

Lemma buildInsertSQL_fails_on_empty_names_witness :
  let g := Sample.autoGroup "Users" "users" "upsert" ["id"] [""] None in
  Sql.buildInsertSQL g ["id"; "name"] = Throw bad_name.
Proof.
  intros g.
  destruct (Sql.buildInsertSQL g ["id"; "name"]) as [sql | e] eqn:Hb.
  - exfalso.
    destruct (proj1 (proj1 (buildInsertSQL_fails_on_empty_names g ["id"; "name"]))
                (ex_intro _ sql Hb)) as (_ & _ & Hupd).
    specialize (Hupd eq_refl ltac:(discriminate)).
    inversion Hupd as [| ? ? Hne _]. now apply Hne.
  - f_equal. exact (proj2 (buildInsertSQL_fails_on_empty_names g ["id"; "name"]) e Hb).
Defined.

Lemma insert_statement_text_witness :
  let g := Sample.autoGroup "Users" "users" "replace" [] [] None in
  Sql.buildInsertSQL g ["id"; "name"]
  = Ok ("INSERT OR REPLACE INTO " +:+ quoted "Users" +:+ " (" +:+ quoted "id" +:+ ", "
        +:+ quoted "name" +:+ ") VALUES (?, ?)").
Proof.
  intros g.
  refine (eq_trans (insert_statement_text g ["id"; "name"] _ _ _) _).
  - discriminate.
  - discriminate.
  - repeat constructor; discriminate.
  - reflexivity.
Defined.

(** ** Distinct keys, batched selects and lookups *)

Section UniqFacts.
Import Handler.

Lemma uniq_elem (x : string) (l : list string) : x ∈ uniq l <-> x ∈ l.
Proof.
  induction l as [| a l IH]; [reflexivity |].
  cbn [uniq]. rewrite !elem_of_cons, list_elem_of_filter, IH.
  destruct (String.eqb_spec a x) as [-> | Hne]; cbn; [tauto |].
  split; [tauto |]. intros [-> | Hx]; [tauto | right; split; [exact I | exact Hx]].
Qed.

(** X4.  [uniq] keeps exactly the members of the list, each once. *)
Theorem uniq_distinct (l : list string) :
  NoDup (uniq l) /\ forall x, x ∈ uniq l <-> x ∈ l.
Proof.
  split; [| intros x; apply uniq_elem].
  induction l as [| a l IH]; [constructor |].
  cbn [uniq]. apply NoDup_cons. split; [| now apply NoDup_filter].
  rewrite list_elem_of_filter. intros [Ha _]. now rewrite String.eqb_refl in Ha.
Qed.

End UniqFacts.

Section SelectFacts.
Context `{Runtime}.
Variable world : list (event * Res value) -> event -> Res value.
Import Mapper Handler.

Lemma selects_push_all sql params r st :
  selects (log (push (EvAll sql params) r st)) = selects (log st) ++ [params].
Proof.
  unfold selects. cbn [push log rev]. now rewrite omap_app.
Qed.

Lemma select_chunks_selects idCol expr tbl chunks : forall out st m st',
  select_chunks world idCol expr tbl chunks out st = (Ok m, st') ->
  selects (log st') = selects (log st) ++ chunks.
Proof.
  induction chunks as [| ch chunks IH]; intros out st m st'; cbn [select_chunks].
  - intros [= _ <-]. now rewrite app_nil_r.
  - unfold bind at 1, call.
    destruct (world (log st) _) as [rows | e] eqn:Hw; [| discriminate].
    unfold bind at 1, lift.
    destruct (store_rows _ out) as [out' | e]; [| discriminate].
    intros Hrest. rewrite (IH _ _ _ _ Hrest), selects_push_all, <- app_assoc.
    reflexivity.
Qed.

(** X5.  When [selectIdsByKeys] returns, it has asked the store once per
    batch of the distinct keys, in order, with at most 500 keys (and at least
    one) in each request; without keys, or for a specification that is not
    [byColumns] with columns, it asks nothing and returns the empty map. *)
Theorem select_batches g spec keys st m st' :
  selectIdsByKeys world g spec keys st = (Ok m, st') ->
  (keys = [] \/ byColumnsWithColumns spec = false ->
     m = ∅ /\ st' = st)
  /\ (keys <> [] -> byColumnsWithColumns spec = true ->
      exists chunks, chunks_of 500 (uniq keys) chunks
                     /\ selects (log st') = selects (log st) ++ chunks).
Proof.
  intros Hsel. unfold selectIdsByKeys, byColumnsWithColumns in *.
  destruct keys as [| k keys]; [injection Hsel as <- <-; split; [auto | congruence] |].
  destruct (String.eqb (spec_mode spec) "byColumns"); cbn [negb orb andb] in *;
    [| injection Hsel as <- <-; split; [auto | discriminate]].
  destruct (Nat.eqb (length (spec_columns spec)) 0); cbn [negb] in *;
    [injection Hsel as <- <-; split; [auto | discriminate] |].
  split; [intros [? | ?]; discriminate |]. intros _ _.
  revert Hsel. unfold bind at 1, lift.
  destruct (Util.qid _) as [idCol | e]; [| discriminate].
  unfold bind at 1. destruct (Keys.buildKeyConcatExpr spec) as [expr | e]; [| discriminate].
  unfold bind at 1. destruct (Util.qid _) as [tbl | e]; [| discriminate].
  destruct (chunkify_spec (uniq (k :: keys)) 500 ltac:(lia)) as (chunks & Hch & Hspec).
  unfold bind at 1. rewrite Hch. cbn [chunks_or_hang ret].
  intros Hrest. exists chunks. split; [exact Hspec |].
  exact (select_chunks_selects _ _ _ _ _ _ _ _ Hrest).
Qed.

(** What [store_rows] binds: every binding of the result is a binding of
    the map it started from, or the identifier of a returned row under the
    key of that row. *)
Lemma store_rows_bindings rows : forall out m k id,
  store_rows rows out = Ok m -> m !! k = Some id ->
  out !! k = Some id
  \/ exists r, r ∈ rows /\ ToString (getProp r "_k") = Ok k /\ id = getProp r "id".
Proof.
  induction rows as [| r rows IH]; intros out m k id; cbn [store_rows].
  - intros [= <-] Hk. now left.
  - destruct (nullish r); [discriminate |].
    destruct (ToString (getProp r "_k")) as [kr | e] eqn:Hkr; [| discriminate].
    cbn [rbind]. intros Hrest Hk.
    destruct (IH _ _ _ _ Hrest Hk) as [Hout | (r' & Hin & Hk' & Hid)].
    + rewrite lookup_insert in Hout. case_decide as Hd.
      * injection Hout as <-. subst kr. right. exists r.
        split; [apply elem_of_cons; now left | auto].
      * now left.
    + right. exists r'. split; [apply elem_of_cons; now right | auto].
Qed.

Lemma composeKey_string spec k sep :
  Keys.composeKeyWithSpec spec (VStr k) sep = Ok k.
Proof.
  unfold Keys.composeKeyWithSpec. destruct spec as [sp |]; [| reflexivity].
  destruct (String.eqb (spec_mode sp) ""); reflexivity.
Qed.

(** X6.  A lookup by a string key into the map built from the rows that a
    select returned never answers an identifier of another key: it leaves
    the state as it is, and answers [null] or the [id] of a returned row
    whose key text is that string. *)
Theorem lookup_answers_selected_id rows m alias maps specs gi k st :
  store_rows rows ∅ = Ok m ->
  maps !! alias = Some {| ctx_map := m; publisher := gi |} ->
  exists id,
    resolveLookupId alias maps specs (VStr k) st = (Ok id, st)
    /\ (id = VNull
        \/ exists r, r ∈ rows /\ ToString (getProp r "_k") = Ok k /\ id = getProp r "id").
Proof.
  intros Hstore Hmaps. unfold resolveLookupId. rewrite Hmaps.
  unfold bind, lift, ret. rewrite composeKey_string. cbn [ctx_map].
  destruct (m !! k) as [id |] eqn:Hk; [| exists VNull; auto].
  destruct (nullish id) eqn:Hn; [exists VNull; auto |].
  exists id. split; [reflexivity |]. right.
  destruct (store_rows_bindings rows ∅ m k id Hstore Hk) as [Hempty | Hrow]; [| exact Hrow].
  rewrite lookup_empty in Hempty. discriminate.
Qed.

End SelectFacts.

Lemma select_batches_witness :
  let g := Sample.autoGroup "Departments" "departments" "none" [] [] None in
  let keys := ["HR"; "ENG"; "HR"] in
  exists chunks,
    chunks_of 500 (Handler.uniq keys) chunks
    /\ selects (log (snd (Handler.selectIdsByKeys Sample.world g Sample.sampleSpec keys init)))
       = selects (log init) ++ chunks.
Proof.
  intros g keys.
  destruct (Handler.selectIdsByKeys Sample.world g Sample.sampleSpec keys init) as [[m | e] st'] eqn:Hr.
  - exact (proj2 (select_batches Sample.world g Sample.sampleSpec keys init m st' Hr)
             ltac:(discriminate) eq_refl).
  - exfalso. vm_compute in Hr. discriminate Hr.
Defined.

Lemma lookup_answers_selected_id_witness :
  let rows := [VObj [("_k", VStr "HR"); ("id", VStr "#HR")];
               VObj [("_k", VStr "ENG"); ("id", VStr "#ENG")]] in
  let m : gmap string value := <["ENG" := VStr "#ENG"]> (<["HR" := VStr "#HR"]> ∅) in
  let maps : gmap string Ctx := <["Departments" := {| ctx_map := m; publisher := 0 |}]> ∅ in
  exists id,
    Mapper.resolveLookupId "Departments" maps ∅ (VStr "ENG") init = (Ok id, init)
    /\ (id = VNull
        \/ exists r, r ∈ rows /\ ToString (getProp r "_k") = Ok "ENG" /\ id = getProp r "id").
Proof.
  intros rows m maps.
  apply (lookup_answers_selected_id rows m "Departments" maps ∅ 0 "ENG" init).
  - reflexivity.
  - vm_compute. reflexivity.
Defined.

(** ** Keys of rows and keys of lookups *)

Section KeyFacts.
Context `{Runtime}.
Import Keys Handler.

Lemma mapM_map {A B C} (f : B -> Res C) (g : A -> B) (l : list A) :
  Util.mapM f (map g l) = Util.mapM (fun x => f (g x)) l.
Proof.
  induction l as [| x l IH]; [reflexivity |]. cbn [map Util.mapM]. now rewrite IH.
Qed.

Lemma separator_default sep :
  or_default sep (or_default sep "|") = or_default sep "|".
Proof. unfold or_default. destruct (String.eqb sep ""); reflexivity. Qed.

(** X7.  For a [byColumns] specification with columns, the key that a
    lookup composes from a record, or from the array of the values of the
    key columns in order, is the key that [keyOfMappedRow] derives from the
    mapped row with these values: the two sides of a lookup agree on the
    text of the key. *)
Theorem lookup_key_is_row_key (spec : KeySpec) (row : value) :
  byColumnsWithColumns spec = true ->
  (isObj row = true ->
     composeKeyWithSpec (Some spec) row (spec_separator spec)
     = keyOfMappedRow row (Some spec))
  /\ composeKeyWithSpec (Some spec)
       (VArr (map (getProp row) (spec_columns spec))) (spec_separator spec)
     = keyOfMappedRow row (Some spec).
Proof.
  unfold byColumnsWithColumns. intros Hby.
  apply andb_true_iff in Hby as [Hmode Hcols].
  unfold composeKeyWithSpec, keyOfMappedRow. rewrite Hmode, Hcols.
  apply String.eqb_eq in Hmode. rewrite Hmode.
  cbn [String.eqb Ascii.eqb Bool.eqb andb from_option]. rewrite separator_default.
  split.
  - intros Hobj. destruct row; try discriminate Hobj; reflexivity.
  - now rewrite mapM_map.
Qed.

End KeyFacts.

Lemma lookup_key_is_row_key_witness :
  let spec := {| spec_alias := "Orders"; spec_mode := "byColumns";
                 spec_columns := ["shop"; "number"];
                 spec_template := ""; spec_jsonata := ""; spec_separator := "";
                 spec_selectMissing := false; spec_returnPath := ""; spec_idColumn := "id" |} in
  let row := VObj [("number", VStr "17"); ("shop", VStr "north"); ("note", VNull)] in
  Keys.keyOfMappedRow row (Some spec) = Ok "north|17"
  /\ Keys.composeKeyWithSpec (Some spec) row "" = Ok "north|17"
  /\ Keys.composeKeyWithSpec (Some spec) (VArr [VStr "north"; VStr "17"]) "" = Ok "north|17".
Proof.
  intros spec row.
  destruct (lookup_key_is_row_key spec row eq_refl) as [Hobj Harr].
  split; [reflexivity |]. split.
  - exact (eq_trans (Hobj eq_refl) eq_refl).
  - exact (eq_trans Harr eq_refl).
Defined.

(** ** Templates of keys and the normalised KeySpec *)

Section TemplateFacts.
Context `{Runtime}.
Import Keys.

Lemma span_name_plain (nm rest : string) :
  occurs "}" nm = false ->
  span_name (nm +:+ String "}" rest) = (nm, String "}" rest).
Proof.
  induction nm as [| c nm IH]; intros Hno; [reflexivity |].
  cbn [occurs] in Hno. apply orb_false_iff in Hno as [Hc Hnm].
  simpl. rewrite Ascii.eqb_sym, Hc. simpl in IH. now rewrite (IH Hnm).
Qed.

Lemma match_placeholder_at (nm rest : string) :
  nm <> "" -> occurs "}" nm = false ->
  match_placeholder ("{{" +:+ nm +:+ "}}" +:+ rest) = Some nm.
Proof.
  intros Hne Hno. unfold match_placeholder.
  change ("{{" +:+ nm +:+ "}}" +:+ rest)
    with (String "{" (String "{" (nm +:+ String "}" (String "}" rest)))).
  cbv beta iota. rewrite (span_name_plain nm _ Hno).
  destruct nm; [contradiction | reflexivity].
Qed.

Lemma string_app_cons (x : ascii) (a b : string) : String x a +:+ b = String x (a +:+ b).
Proof. reflexivity. Qed.

Lemma string_app_assoc (a b c : string) : (a +:+ b) +:+ c = a +:+ (b +:+ c).
Proof.
  induction a as [| x a IH]; [reflexivity |]. now rewrite !string_app_cons, IH.
Qed.

Lemma string_app_length (a b : string) :
  String.length (a +:+ b) = String.length a + String.length b.
Proof.
  induction a as [| x a IH]; [reflexivity |].
  rewrite string_app_cons. cbn [String.length]. now rewrite IH.
Qed.

Lemma fill_template_skip mapped (a rest : string) : forall k,
  k = String.length a ->
  fill_template mapped k (a +:+ rest) = fill_template mapped 0 rest.
Proof.
  induction a as [| c a IH]; intros k ->; [destruct rest; reflexivity |].
  exact (IH _ eq_refl).
Qed.

Lemma fill_template_at_placeholder mapped (c : ascii) (s nm : string) :
  match_placeholder (String c s) = Some nm ->
  fill_template mapped 0 (String c s)
  = (let? v := str_or_empty (getProp mapped (Text.trim nm)) in
     let? r := fill_template mapped (String.length nm + 3) s in
     Ok (v +:+ r)).
Proof. intros Hm. cbn [fill_template]. now rewrite Hm. Qed.

Lemma match_placeholder_brace (c : ascii) (s : string) :
  c <> "{"%char -> match_placeholder (String c s) = None.
Proof.
  intros Hc. unfold match_placeholder.
  destruct c as [[] [] [] [] [] [] [] []]; try reflexivity. contradiction.
Qed.

(** X8.  In a key template, a placeholder made of two opening braces, a
    name without closing brace and two closing braces is replaced by the
    string form of the row's property of that name (trimmed), [null] and
    missing properties giving the empty string; a character other than an
    opening brace is kept; so a template without opening brace is the key of
    every row. *)
Theorem template_substitution (mapped : value) :
  (forall nm rest, nm <> "" -> occurs "}" nm = false ->
     fill_template mapped 0 ("{{" +:+ nm +:+ "}}" +:+ rest)
     = (let? v := str_or_empty (getProp mapped (Text.trim nm)) in
        let? r := fill_template mapped 0 rest in
        Ok (v +:+ r)))
  /\ (forall c s, c <> "{"%char ->
        fill_template mapped 0 (String c s)
        = (let? r := fill_template mapped 0 s in Ok (String c r)))
  /\ (forall s, occurs "{" s = false -> fill_template mapped 0 s = Ok s).
Proof.
  assert (Hlit : forall c s, c <> "{"%char ->
            fill_template mapped 0 (String c s)
            = (let? r := fill_template mapped 0 s in Ok (String c r))).
  { intros c s Hc. cbn [fill_template]. now rewrite (match_placeholder_brace c s Hc). }
  split; [| split; [exact Hlit |]].
  - intros nm rest Hne Hno.
    pose proof (match_placeholder_at nm rest Hne Hno) as Hm.
    change ("{{" +:+ nm +:+ "}}" +:+ rest)
      with (String "{" (String "{" (nm +:+ "}}" +:+ rest))) in *.
    rewrite (fill_template_at_placeholder mapped _ _ nm Hm).
    replace (String "{" (nm +:+ "}}" +:+ rest)) with ((String "{" nm +:+ "}}") +:+ rest)
      by (now rewrite string_app_assoc).
    rewrite (fill_template_skip mapped (String "{" nm +:+ "}}") rest); [reflexivity |].
    rewrite string_app_length. cbn [String.length]. lia.
  - induction s as [| c s IH]; [reflexivity |].
    cbn [occurs]. intros Hno. apply orb_false_iff in Hno as [Hc Hs].
    rewrite Hlit, (IH Hs); [reflexivity |].
    intros ->. discriminate Hc.
Qed.

End TemplateFacts.

Lemma template_substitution_witness :
  let row := VObj [("shop", VStr "north"); ("number", VStr "17"); ("note", VNull)] in
  Keys.fill_template row 0 "{{ shop }}/{{number}}{{note}}" = Ok "north/17"
  /\ Keys.fill_template row 0 "shop/number}}" = Ok "shop/number}}".
Proof.
  intros row. destruct (template_substitution row) as (Hph & _ & Hplain). split.
  - refine (eq_trans (Hph " shop " "/{{number}}{{note}}" _ _) _);
      [discriminate | reflexivity | reflexivity].
  - apply Hplain. reflexivity.
Defined.

Section NormFacts.
Import Keys.

(** X9.  [normKeySpec] gives nothing exactly for a group without KeySpec
    or with a disabled one.  Otherwise the specification it gives has no
    empty mode, separator or id column (the defaults are [byColumns], the
    bar and [id]), an alias that is not empty when the table is not, and the
    configured columns, except that a KeySpec without columns, of mode
    [byColumns] or without mode, in a group with [conflict = upsert] and
    some [upsertKeys] takes the [upsertKeys] as columns. *)
Theorem normKeySpec_defaults (g : Group) :
  (normKeySpec g = None <->
   keySpec g = None \/ exists ks, keySpec g = Some ks /\ ks_enabled ks = false)
  /\ (forall ks spec, keySpec g = Some ks -> normKeySpec g = Some spec ->
      spec_mode spec <> "" /\ spec_separator spec <> "" /\ spec_idColumn spec <> ""
      /\ (table g <> "" -> spec_alias spec <> "")
      /\ (ks_columns ks <> [] -> spec_columns spec = ks_columns ks)
      /\ (ks_columns ks = [] ->
          spec_columns spec
          = if (String.eqb (ks_mode ks) "" || String.eqb (ks_mode ks) "byColumns")
               && String.eqb (conflict g) "upsert"
            then upsertKeys g else [])).
Proof.
  assert (Hdef : forall x d, d <> "" -> or_default x d <> "").
  { intros x d Hd. unfold or_default. destruct (String.eqb_spec x ""); assumption. }
  unfold normKeySpec. split.
  - destruct (keySpec g) as [ks |]; [| split; [now left | reflexivity]].
    destruct (ks_enabled ks) eqn:He; cbn [negb].
    + split; [discriminate |]. intros [[=] | (ks' & [= <-] & Hd)]. congruence.
    + split; [intros _; right; eauto | reflexivity].
  - intros ks spec ->. destruct (ks_enabled ks); cbn [negb]; [| discriminate].
    intros [= <-]. cbn.
    split; [apply Hdef; discriminate |].
    split; [apply Hdef; discriminate |].
    split; [apply Hdef; discriminate |].
    split; [intros Ht; apply Hdef, Hdef, Ht |].
    split.
    + intros Hc. destruct (ks_columns ks); [contradiction | reflexivity].
    + intros ->. destruct (upsertKeys g); [| reflexivity].
      destruct ((String.eqb (ks_mode ks) "" || String.eqb (ks_mode ks) "byColumns")
                && String.eqb (conflict g) "upsert"); reflexivity.
Qed.

End NormFacts.

Lemma normKeySpec_defaults_witness :
  let g := Sample.autoGroup "Users" "users" "upsert" ["email"] []
             (Some (Sample.keyOn "" [] "")) in
  exists spec, Keys.normKeySpec g = Some spec
               /\ spec_mode spec = "byColumns" /\ spec_columns spec = ["email"]
               /\ spec_alias spec = "Users".
Proof.
  intros g. eexists. split; [reflexivity |].
  destruct (proj2 (normKeySpec_defaults g) _ _ eq_refl eq_refl)
    as (_ & _ & _ & _ & _ & Hcols).
  split; [reflexivity |]. split; [exact (Hcols eq_refl) | reflexivity].
Defined.

(** ** The scope of a chunk *)

Section ScopeFacts.
Context `{Runtime}.
Variable world : list (event * Res value) -> event -> Res value.
Import Mapper Handler.

Lemma commitTx_ok txMode st st' :
  txMode <> "off" -> commitTx world txMode st = (Ok tt, st') ->
  exists v, st' = push (EvRun "COMMIT") (Ok v) st.
Proof.
  intros Hoff. unfold commitTx. destruct (String.eqb_spec txMode "off"); [contradiction |].
  unfold bind, call, ret. destruct (world (log st) (EvRun "COMMIT")) as [v | e];
    [| discriminate].
  intros [= <-]. eauto.
Qed.

Lemma rollbackTx_state txMode st :
  txMode <> "off" ->
  exists o, rollbackTx world txMode st = (Ok tt, push (EvRun "ROLLBACK") o st).
Proof.
  intros Hoff. unfold rollbackTx. destruct (String.eqb_spec txMode "off"); [contradiction |].
  unfold try_catch, bind, call, ret.
  destruct (world (log st) (EvRun "ROLLBACK")) as [v | e]; eauto.
Qed.

(** X10.  In the modes that scope a chunk ([perTable], [chunk]), once the
    [BEGIN] of a chunk has succeeded the chunk never leaves its transaction
    open: it ends either with a [COMMIT] that the driver accepted, and
    returns, or with a [ROLLBACK] as its last request (whatever the driver
    answers to it), and then returns when [continueOnError] is set and throws
    the error of the chunk when it is not. *)
Theorem chunk_scope_is_closed cfg txMode g cols ch st st1 :
  txMode <> "off" ->
  beginTx world txMode st = (Ok tt, st1) ->
  (exists v st2,
     execChunk world cfg txMode g cols ch st
     = (Ok tt, push (EvRun "COMMIT") (Ok v) st2))
  \/ (exists o st2 e,
        execChunk world cfg txMode g cols ch st
        = (if continueOnError cfg then Ok tt else Throw e,
           push (EvRun "ROLLBACK") o st2)).
Proof.
  intros Hoff Hbegin.
  set (b := bind (lift (Sql.buildInsertSQL g cols)) (fun sql =>
            bind (call world (EvPrepare sql)) (fun _ =>
            bind (for_each ch (execRow world cfg g cols)) (fun _ =>
            bind (call world EvFinalize) (fun _ => commitTx world txMode))))).
  set (h := fun e : exn => bind (rollbackTx world txMode) (fun _ =>
                             if continueOnError cfg then ret tt else throw e)).
  assert (Heq : execChunk world cfg txMode g cols ch st = try_catch b h st1).
  { unfold execChunk. unfold bind at 1. now rewrite Hbegin. }
  rewrite Heq. unfold try_catch.
  destruct (b st1) as [[[] | e] st2] eqn:Hb.
  - left. subst b. revert Hb. unfold bind at 1, lift.
    destruct (Sql.buildInsertSQL g cols) as [sql | e]; [| discriminate].
    unfold bind at 1. destruct (call world (EvPrepare sql) st1) as [[v | e] s1]; [| discriminate].
    unfold bind at 1. destruct (for_each ch _ s1) as [[[] | e] s2]; [| discriminate].
    unfold bind at 1. destruct (call world EvFinalize s2) as [[v' | e] s3]; [| discriminate].
    intros Hc. destruct (commitTx_ok txMode s3 st2 Hoff Hc) as [w ->]. eauto.
  - right. destruct (rollbackTx_state txMode st2 Hoff) as [o Hr].
    exists o, st2, e. unfold h, bind. rewrite Hr.
    destruct (continueOnError cfg); reflexivity.
Qed.

End ScopeFacts.

Lemma chunk_scope_is_closed_witness :
  let g := Handler.normGroup (Sample.autoGroup "Codes" "mixed" "none" [] [] None) in
  let rows := [VObj [("code", VStr "A")]; VObj [("code", VNull)]] in
  let cfg := Sample.config "perTable" false [g] in
  (exists v st2,
     Handler.execChunk Sample.world_reject_null cfg "perTable" g ["code"] rows init
     = (Ok tt, push (EvRun "COMMIT") (Ok v) st2))
  \/ (exists o st2 e,
        Handler.execChunk Sample.world_reject_null cfg "perTable" g ["code"] rows init
        = (if continueOnError cfg then Ok tt else Throw e,
           push (EvRun "ROLLBACK") o st2)).
Proof.
  intros g rows cfg.
  apply (chunk_scope_is_closed Sample.world_reject_null cfg "perTable" g ["code"] rows init
           (push (EvRun "BEGIN") (Ok VUndefined) init)).
  - discriminate.
  - reflexivity.
Defined.

(** ** Mapped rows *)

Section RowFacts.
Context `{Runtime}.
Variable world : list (event * Res value) -> event -> Res value.
Import Mapper Handler.

Lemma assoc_copy (h : string -> value) (k : string) (ks : list string) :
  assoc k (map (fun k' => (k', h k')) ks) = if decide (k ∈ ks) then Some (h k) else None.
Proof.
  induction ks as [| a ks IH]; [reflexivity |].
  cbn [map assoc]. destruct (String.eqb_spec k a) as [-> | Hne].
  - rewrite decide_True by (apply elem_of_cons; now left). reflexivity.
  - rewrite IH. destruct (decide (k ∈ ks)) as [Hin | Hnin].
    + rewrite decide_True by (apply elem_of_cons; now right). reflexivity.
    + rewrite decide_False; [reflexivity |].
      intros [-> | Hin]%elem_of_cons; contradiction.
Qed.

Lemma keys_elem (k : string) (fields : list (string * value)) :
  k ∈ keys fields <-> assoc k fields <> None.
Proof.
  induction fields as [| [a v] fields IH]; cbn [keys assoc].
  - split; [intros Hin; inversion Hin | congruence].
  - rewrite elem_of_cons, list_elem_of_filter, IH.
    destruct (String.eqb_spec k a) as [-> | Hne].
    + split; [discriminate | now left].
    + split.
      * intros [-> | [_ Hk]]; [contradiction | exact Hk].
      * intros Hk. right. split; [| exact Hk].
        destruct (String.eqb_spec a k) as [-> | _]; [contradiction | exact I].
Qed.

Lemma keys_NoDup (fields : list (string * value)) : NoDup (keys fields).
Proof.
  induction fields as [| [a v] fields IH]; cbn [keys]; [constructor |].
  apply NoDup_cons. split; [| now apply NoDup_filter].
  rewrite list_elem_of_filter. intros [Ha _]. now rewrite String.eqb_refl in Ha.
Qed.

(** X11.  With [autoMap], [mapRow] asks nothing of the environment and
    never throws: it returns a record with the own properties of the source
    row, every one with the value it has in the row and no name twice; a
    source row that is not a record gives the empty record. *)
Theorem autoMap_copies_the_row g maps specs srcRow st :
  autoMap g = true ->
  exists fields,
    mapRow world g maps specs srcRow st = (Ok (VObj fields), st)
    /\ (forall k, getProp (VObj fields) k = getProp srcRow k)
    /\ NoDup (map fst fields)
    /\ (isObj srcRow = false -> fields = []).
Proof.
  intros Hauto. unfold mapRow. rewrite Hauto.
  assert (Hcopy : forall src fs,
            (forall k, getProp src k = default VUndefined (assoc k fs)) ->
            (forall k, getProp (VObj (map (fun k' => (k', getProp src k')) (keys fs))) k
                       = getProp src k)
            /\ NoDup (map fst (map (fun k' => (k', getProp src k')) (keys fs)))).
  { intros src fs Hsrc. split.
    - intros k. cbn [getProp]. rewrite assoc_copy.
      destruct (decide (k ∈ keys fs)) as [Hin | Hnin]; [reflexivity |].
      rewrite Hsrc. destruct (assoc k fs) eqn:Hk; [| reflexivity].
      exfalso. apply Hnin, keys_elem. congruence.
    - rewrite map_map. cbn [fst]. rewrite map_id. apply keys_NoDup. }
  destruct srcRow as [| | b | n | s | items | fields | fields];
    try (exists []; repeat split; try reflexivity; constructor).
  - destruct (Hcopy (VObj fields) fields (fun _ => eq_refl)) as [Hget Hnd].
    eexists. split; [reflexivity |]. repeat split; try assumption. discriminate.
  - destruct (Hcopy (VBare fields) fields (fun _ => eq_refl)) as [Hget Hnd].
    eexists. split; [reflexivity |]. repeat split; try assumption. discriminate.
Qed.

Lemma setProp_keys (fields : list (string * value)) (k : string) (v : value) (c : string) :
  c ∈ map fst (setProp fields k v) <-> c = k \/ c ∈ map fst fields.
Proof.
  induction fields as [| [a w] fields IH]; cbn [setProp map fst].
  - rewrite elem_of_cons. split; [intros [-> | Hin]; [now left | inversion Hin] | ].
    intros [-> | Hin]; [now left | inversion Hin].
  - destruct (String.eqb_spec k a) as [-> | Hne]; cbn [map fst].
    + rewrite !elem_of_cons. tauto.
    + rewrite !elem_of_cons, IH. tauto.
Qed.

Lemma mapEntry_keys maps specs srcRow out m st out' st' :
  mapEntry world maps specs srcRow out m st = (Ok out', st') ->
  forall c, c ∈ map fst out' <-> (c = col m /\ col m <> "") \/ c ∈ map fst out.
Proof.
  unfold mapEntry. destruct (String.eqb_spec (col m) "") as [He | Hne].
  - intros [= <- _] c. rewrite He. split; [now right | intros [[-> Hc] | Hc]; [congruence | exact Hc]].
  - assert (Hset : forall v c, c ∈ map fst (setProp out (col m) v)
                               <-> (c = col m /\ col m <> "") \/ c ∈ map fst out).
    { intros v c. rewrite setProp_keys. tauto. }
    destruct (String.eqb (source_ m) "lookup").
    + unfold bind at 1. destruct (typedGet world _ _ _ st) as [[val | e] s1]; [| discriminate].
      unfold bind at 1. destruct (resolveLookupId _ _ _ _ s1) as [[id | e] s2]; [| discriminate].
      destruct (nullish id && _).
      * unfold bind, lift, throw. destruct (keyShow val); discriminate.
      * intros [= <- _]. apply Hset.
    + unfold bind at 1. destruct (typedGet world _ _ _ st) as [[raw | e] s1]; [| discriminate].
      unfold bind, lift, ret. destruct (Transforms.applyTransform raw _); [| discriminate].
      intros [= <- _]. apply Hset.
Qed.

(** X12.  Without [autoMap], a row that [mapRow] maps has exactly the
    columns named by the mapping (the entries with an empty column are
    skipped): every column that the statement binds is a property of the
    mapped row. *)
Theorem mapped_row_has_the_mapping_columns g maps specs srcRow st row st' :
  autoMap g = false ->
  mapRow world g maps specs srcRow st = (Ok row, st') ->
  exists fields,
    row = VObj fields
    /\ forall c, c ∈ map fst fields <-> c ∈ Sql.filter_truthy (map col (mapping g)).
Proof.
  intros Hauto. unfold mapRow. rewrite Hauto. unfold bind at 1.
  destruct (mapEntries world maps specs srcRow [] (mapping g) st) as [[out | e] s1] eqn:Hm;
    [| discriminate].
  intros [= <- _]. exists out. split; [reflexivity |].
  assert (Hgen : forall ms out0 st0 out1 st1,
            mapEntries world maps specs srcRow out0 ms st0 = (Ok out1, st1) ->
            forall c, c ∈ map fst out1
                      <-> c ∈ map fst out0 \/ c ∈ Sql.filter_truthy (map col ms)).
  { clear. induction ms as [| m ms IH]; intros out0 st0 out1 st1; cbn [mapEntries].
    - intros [= <- _] c. split; [now left | intros [Hc | Hc]; [exact Hc | inversion Hc]].
    - unfold bind at 1.
      destruct (mapEntry world maps specs srcRow out0 m st0) as [[o | e] s] eqn:He;
        [| discriminate].
      intros Hrest c. rewrite (IH _ _ _ _ Hrest c), (mapEntry_keys _ _ _ _ _ _ _ _ He c).
      unfold Sql.filter_truthy. cbn [map]. rewrite filter_cons.
      destruct (String.eqb_spec (col m) "") as [Hc | Hc].
      + rewrite decide_False by (cbn; tauto). intuition congruence.
      + rewrite decide_True by (cbn; tauto). rewrite elem_of_cons. intuition congruence. }
  intros c. rewrite (Hgen _ _ _ _ _ Hm c). cbn [map].
  split; [intros [Hc | Hc]; [inversion Hc | exact Hc] | now right].
Qed.

(** X13.  [typedGet] never throws for the kinds [str], [bool], [json] and
    [jsonata] and for a kind it does not know; for [bool] it gives the
    truth value of the operand, and for [str] and unknown kinds the operand
    itself, in both cases without asking the environment. *)
Theorem typedGet_quiet_kinds type v rowCtx st :
  (type = "bool" -> typedGet world type v rowCtx st = (Ok (VBool (truthy v)), st))
  /\ (type = "json" \/ type = "jsonata" ->
      exists r st', typedGet world type v rowCtx st = (Ok r, st'))
  /\ (~ type ∈ ["num"; "bool"; "json"; "env"; "msg"; "flow"; "global"; "jsonata"] ->
      typedGet world type v rowCtx st = (Ok v, st)).
Proof.
  split; [intros ->; reflexivity |]. split.
  - intros [-> | ->]; unfold typedGet; cbn [String.eqb Ascii.eqb Bool.eqb orb];
      unfold try_catch, bind, lift, call, ret, note.
    + destruct (world (log st) _); eauto.
    + destruct (ToString v); [| eauto]. destruct (world (log st) _); eauto.
  - intros Hnot. unfold typedGet.
    repeat match goal with
           | |- context [String.eqb type ?k] =>
               destruct (String.eqb_spec type k) as [-> | ?];
                 [exfalso; apply Hnot; repeat (apply elem_of_cons; (now left) || right) |]
           end.
    reflexivity.
Qed.

End RowFacts.

Lemma autoMap_copies_the_row_witness :
  let g := Sample.autoGroup "Users" "users" "none" [] [] None in
  exists fields,
    Mapper.mapRow Sample.world g ∅ ∅ (VStr "not a record") init = (Ok (VObj fields), init)
    /\ (forall k, getProp (VObj fields) k = getProp (VStr "not a record") k)
    /\ NoDup (map fst fields)
    /\ (isObj (VStr "not a record") = false -> fields = []).
Proof.
  intros g. apply (autoMap_copies_the_row Sample.world g ∅ ∅ (VStr "not a record") init).
  reflexivity.
Defined.

Lemma mapped_row_has_the_mapping_columns_witness :
  let g := Sample.mappedGroup "Employees" "employees"
             [Sample.lookupEntry "dept_id" "Departments" "dept_code" false;
              Sample.lookupEntry "" "Departments" "dept_code" false] in
  let src := VObj [("dept_code", VStr "ENG")] in
  exists fields,
    VObj [("dept_id", VNull)] = VObj fields
    /\ forall c, c ∈ map fst fields <-> c ∈ Sql.filter_truthy (map col (mapping g)).
Proof.
  intros g src.
  eapply (mapped_row_has_the_mapping_columns Sample.world g ∅ ∅ src init); reflexivity.
Defined.

Lemma typedGet_quiet_kinds_witness :
  Mapper.typedGet Sample.world "bool" (VStr "") None init = (Ok (VBool false), init)
  /\ Mapper.typedGet Sample.world "date" (VStr "x") None init = (Ok (VStr "x"), init).
Proof.
  destruct (typedGet_quiet_kinds Sample.world "bool" (VStr "") None init) as (Hb & _).
  destruct (typedGet_quiet_kinds Sample.world "date" (VStr "x") None init) as (_ & _ & Hu).
  split; [exact (Hb eq_refl) |].
  apply Hu. intros Hin.
  repeat (apply elem_of_cons in Hin as [Hin | Hin]; [discriminate Hin |]).
  inversion Hin.
Defined.

(** ** Trimming *)

Section TrimFacts.
Import Text.

Lemma trim_start_split (s : string) :
  exists a, s = a +:+ trim_start s /\ all_space a = true.
Proof.
  induction s as [| c s (a & Hs & Ha)]; [exists ""; split; reflexivity |].
  cbn [trim_start]. destruct (is_space c) eqn:Hc.
  - exists (String c a). rewrite string_app_cons, <- Hs. cbn [all_space].
    now rewrite Hc, Ha.
  - exists "". split; reflexivity.
Qed.

Lemma trim_start_head (s : string) (c : ascii) (r : string) :
  trim_start s = String c r -> is_space c = false.
Proof.
  induction s as [| x s IH]; cbn [trim_start]; [discriminate |].
  destruct (is_space x) eqn:Hx; [exact IH |]. now intros [= <- _].
Qed.

Lemma trim_end_cons (x : ascii) (t : string) :
  trim_end (String x t)
  = match trim_end t with
    | EmptyString => if is_space x then EmptyString else String x EmptyString
    | u => String x u
    end.
Proof. reflexivity. Qed.

Lemma trim_end_split (t : string) :
  exists b, t = trim_end t +:+ b /\ all_space b = true.
Proof.
  induction t as [| x t (b & Ht & Hb)]; [exists ""; split; reflexivity |].
  rewrite trim_end_cons. destruct (trim_end t) as [| y u] eqn:Hu.
  - destruct (is_space x) eqn:Hx.
    + exists (String x b). split; [now rewrite Ht at 1 |]. cbn [all_space]. now rewrite Hx, Hb.
    + exists b. split; [now rewrite Ht at 1 | exact Hb].
  - exists b. split; [now rewrite Ht at 1 | exact Hb].
Qed.

Lemma trim_end_last (t r : string) (c : ascii) :
  trim_end t = r +:+ String c "" -> is_space c = false.
Proof.
  revert r. induction t as [| x t IH]; intros r.
  - destruct r; discriminate.
  - rewrite trim_end_cons. destruct (trim_end t) as [| y u] eqn:Hu.
    + destruct (is_space x) eqn:Hx; [destruct r; discriminate |].
      destruct r as [| z r]; [now intros [= <-] |].
      rewrite string_app_cons. intros [= _ Hr]. destruct r; discriminate.
    + destruct r as [| z r]; [intros [= _ Hr]; discriminate |].
      rewrite string_app_cons. intros [= _ Hr]. exact (IH r Hr).
Qed.

Lemma trim_end_head (c : ascii) (t : string) :
  is_space c = false -> exists r, trim_end (String c t) = String c r.
Proof.
  intros Hc. rewrite trim_end_cons, Hc. destruct (trim_end t); eauto.
Qed.

Lemma trim_end_blank (t : string) : trim_end t = "" <-> all_space t = true.
Proof.
  induction t as [| x t IH]; [split; reflexivity |].
  rewrite trim_end_cons. cbn [all_space]. rewrite andb_true_iff, <- IH.
  destruct (trim_end t) as [| y u]; destruct (is_space x); split;
    try discriminate; try tauto; intros [? ?]; discriminate.
Qed.

(** [trim] removes white space at both ends and nothing else: the
    string is some white space, then the trimmed string, then some white
    space; the trimmed string neither begins nor ends with white space; and
    it is empty exactly when the string is made of white space only. *)
Theorem trim_removes_outer_space (s : string) :
  (exists a b, s = a +:+ trim s +:+ b /\ all_space a = true /\ all_space b = true)
  /\ (forall c r, trim s = String c r -> is_space c = false)
  /\ (forall r c, trim s = r +:+ String c "" -> is_space c = false)
  /\ (trim s = "" <-> all_space s = true).
Proof.
  unfold trim.
  destruct (trim_start_split s) as (a & Hs & Ha).
  destruct (trim_end_split (trim_start s)) as (b & Ht & Hb).
  assert (Hhead : forall c r, trim_end (trim_start s) = String c r -> is_space c = false).
  { intros c r Hc. destruct (trim_start s) as [| x t] eqn:Hx; [discriminate |].
    pose proof (trim_start_head s x t Hx) as Hsp.
    destruct (trim_end_head x t Hsp) as [r' Hr]. rewrite Hr in Hc.
    now injection Hc as <- _. }
  split; [| split; [exact Hhead | split; [apply trim_end_last |]]].
  - exists a, b. split; [| auto]. rewrite <- Ht. exact Hs.
  - rewrite trim_end_blank. split.
    + intros Hall. destruct (trim_start s) as [| x t] eqn:Hx.
      * rewrite Hs. clear -Ha. induction a as [| y a IH]; [reflexivity |].
        cbn [all_space] in *. apply andb_true_iff in Ha as [Hy Ha].
        rewrite string_app_cons. cbn [all_space]. now rewrite Hy, IH.
      * pose proof (trim_start_head s x t Hx) as Hsp.
        cbn [all_space] in Hall. now rewrite Hsp in Hall.
    + intros Hall. clear -Hall. induction s as [| x s IH]; [reflexivity |].
      cbn [all_space] in Hall. apply andb_true_iff in Hall as [Hx Hs].
      cbn [trim_start]. rewrite Hx. exact (IH Hs).
Qed.

End TrimFacts.

Lemma trim_removes_outer_space_witness :
  Text.trim "  PRAGMA cache_size = 2000 " = "PRAGMA cache_size = 2000"
  /\ (Text.trim "  PRAGMA cache_size = 2000 " = "" <-> all_space "  PRAGMA cache_size = 2000 " = true).
Proof.
  split; [reflexivity |].
  exact (proj2 (proj2 (proj2 (trim_removes_outer_space "  PRAGMA cache_size = 2000 ")))).
Defined.

(** ** The start of a run: the database path and the PRAGMA block *)

Section StartFacts.
Context `{Runtime}.
Variable world : list (event * Res value) -> event -> Res value.
Import Mapper Handler.

Lemma only_pragmas_refl st : only_pragmas st st.
Proof. split; [exists []; split; [reflexivity | constructor] | auto]. Qed.

Lemma only_pragmas_push st0 st ev r :
  pragma_event ev = true -> only_pragmas st0 st -> only_pragmas st0 (push ev r st).
Proof.
  intros Hev [(new & Hlog & Hall) Hrest]. split; [| exact Hrest].
  exists ((ev, r) :: new). cbn [push log]. rewrite Hlog. split; [reflexivity |].
  constructor; assumption.
Qed.

Lemma prefix_app (p r : string) : String.prefix p (p +:+ r) = true.
Proof.
  induction p as [| c p IH]; [destruct r; reflexivity |].
  rewrite string_app_cons. cbn [String.prefix].
  destruct (ascii_dec c c); [exact IH | contradiction].
Qed.

Lemma pragma_call st0 ev :
  pragma_event ev = true -> hoare (only_pragmas st0) (call world ev) (only_pragmas st0).
Proof. intros Hev st Hst. now apply only_pragmas_push. Qed.

Lemma pragma_note st0 ev :
  pragma_event ev = true -> hoare (only_pragmas st0) (note ev) (only_pragmas st0).
Proof. intros Hev st Hst. now apply only_pragmas_push. Qed.

(** X14.  The PRAGMA block never throws: a statement that the driver
    rejects ends the block with a warning.  All that the block sends to the
    driver are statements that begin with [PRAGMA], and it changes nothing
    of the state of the run but the log. *)
Theorem pragmas_never_fail cfg st :
  fst (pragmas world cfg st) = Ok tt
  /\ only_pragmas st (snd (pragmas world cfg st)).
Proof.
  split.
  - unfold pragmas, try_catch.
    match goal with |- context [match ?m st with _ => _ end] => destruct (m st) as [[[] | e] s] end;
      reflexivity.
  - assert (Hh : hoare (only_pragmas st) (pragmas world cfg) (only_pragmas st)).
    { unfold pragmas. repeat keeps_step;
        try (apply pragma_call; reflexivity); try (apply pragma_note; reflexivity).
      - apply pragma_call. apply (prefix_app "PRAGMA ").
      - apply pragma_note. apply (prefix_app "PRAGMA warning: "). }
    apply Hh, only_pragmas_refl.
Qed.

(** X15.  A run whose database path does not resolve to a string that is
    not empty throws [Invalid database path] right after the resolution: the
    database is not opened and no group is processed. *)
Theorem invalid_database_path cfg v st1 :
  typedGet world (or_default (dbPathType cfg) "str") (dbPath cfg) (Some VNull) init
  = (Ok v, st1) ->
  (forall p, v = VStr p -> p = "") ->
  run world cfg = (Throw (Error "Invalid database path"), st1).
Proof.
  intros Hget Hbad. unfold run, handler. unfold bind at 1. rewrite Hget.
  destruct v as [| | | | p | | |]; try reflexivity.
  rewrite (Hbad p eq_refl). reflexivity.
Qed.

End StartFacts.

Lemma pragmas_never_fail_witness :
  let cfg := {| txMode := "perTable"; chunkSize := 500; continueOnError := false;
                enableWAL := true; syncMode := "NORMAL";
                extraPragmas := " cache_size = 2000 ;; foreign_keys = ON ";
                groups := []; dbPathType := "str"; dbPath := VStr "data.db" |} in
  Sample.driver_trace (snd (Handler.pragmas Sample.world cfg init))
  = ["PRAGMA journal_mode=WAL;"; "PRAGMA synchronous=NORMAL;";
     "PRAGMA cache_size = 2000;"; "PRAGMA foreign_keys = ON;"]
  /\ fst (Handler.pragmas Sample.world cfg init) = Ok tt.
Proof.
  intros cfg. split; [vm_compute; reflexivity |].
  exact (proj1 (pragmas_never_fail Sample.world cfg init)).
Defined.

Lemma invalid_database_path_witness :
  let cfg := {| txMode := "all"; chunkSize := 500; continueOnError := true;
                enableWAL := true; syncMode := ""; extraPragmas := "";
                groups := [Sample.autoGroup "Departments" "departments" "none" [] [] None];
                dbPathType := "num"; dbPath := VStr "42" |} in
  Handler.run Sample.world cfg = (Throw (Error "Invalid database path"), init).
Proof.
  intros cfg.
  apply (invalid_database_path Sample.world cfg (VNum (Sample.of_Z 42)) init).
  - reflexivity.
  - discriminate.
Defined.

(** ** Configuration files *)

Section ConfigFileFacts.
Context `{Runtime}.
Import ConfigFile.

Lemma endsWith_spec (s suffix : string) :
  endsWith s suffix = true <-> exists stem, s = stem +:+ suffix.
Proof.
  split.
  - induction s as [| c s IH]; cbn [endsWith].
    + rewrite orb_false_r. intros ->%String.eqb_eq. now exists "".
    + intros [->%String.eqb_eq | Hs]%orb_true_iff; [now exists "" |].
      destruct (IH Hs) as [stem ->]. now exists (String c stem).
  - intros [stem ->]. induction stem as [| c stem IH].
    + change ("" +:+ suffix) with suffix.
      destruct suffix; cbn [endsWith]; now rewrite String.eqb_refl.
    + rewrite string_app_cons. cbn [endsWith]. rewrite IH. apply orb_true_r.
Qed.

(** X16.  [ensureJsonExt] accepts exactly the strings that end with
    [.json] whatever the case of the letters; it rejects every other value
    with [Config path is empty] (a value that is not a string, the empty
    string) or [Config path must end with .json]. *)
Theorem ensureJsonExt_accepts (p : value) :
  (ensureJsonExt p = Ok tt <->
   exists s stem, p = VStr s /\ Text.toLowerCase s = stem +:+ ".json")
  /\ (forall e, ensureJsonExt p = Throw e ->
      (e = Error "Config path is empty" /\ (forall s, p = VStr s -> s = ""))
      \/ (e = Error "Config path must end with .json" /\ exists s, p = VStr s /\ s <> "")).
Proof.
  unfold ensureJsonExt. split.
  - split.
    + destruct p as [| | | | s | | |]; try discriminate.
      destruct (String.eqb s ""); [discriminate |].
      destruct (endsWith (Text.toLowerCase s) ".json") eqn:He; [| discriminate].
      intros _. apply endsWith_spec in He as [stem Hs]. eauto.
    + intros (s & stem & -> & Hs).
      destruct (String.eqb_spec s "") as [-> | _].
      * destruct stem; discriminate Hs.
      * rewrite (proj2 (endsWith_spec _ _) (ex_intro _ stem Hs)). reflexivity.
  - intros e. destruct p as [| | | | s | | |]; try (intros [= <-]; left; split;
      [reflexivity | intros ? [=]]).
    destruct (String.eqb_spec s "") as [-> | Hne].
    + intros [= <-]. left. split; [reflexivity | now intros ? [= <-]].
    + destruct (endsWith (Text.toLowerCase s) ".json"); [discriminate |].
      intros [= <-]. right. eauto.
Qed.

Variable resolveUnderUserDir : string -> Res string.
Variable canWatch : string -> bool.

Lemma is_Some_insert_iff (m : gmap string Z) (a b : string) (c : Z) :
  is_Some (<[a := c]> m !! b) <-> a = b \/ is_Some (m !! b).
Proof.
  rewrite lookup_insert. case_decide as Hd.
  - split; [now left | eauto].
  - split; [now right | intros [? | ?]; [contradiction | assumption]].
Qed.

(** X17.  Starting and stopping the watching of a configuration file keep
    the table of watchers sound: every count stays at least one, and the
    table holds exactly the paths whose watcher is open, so that no watcher
    is left open without an entry and none is closed while nodes are still
    counted on it. *)
Theorem watchers_table_is_sound (node : NodeFile) (ws : wstate) :
  counts_positive ws -> table_matches_watchers ws ->
  (counts_positive (startWatchingIfNeeded resolveUnderUserDir canWatch node ws)
   /\ table_matches_watchers (startWatchingIfNeeded resolveUnderUserDir canWatch node ws))
  /\ (counts_positive (stopWatching resolveUnderUserDir node ws)
      /\ table_matches_watchers (stopWatching resolveUnderUserDir node ws)).
Proof.
  intros Hpos Htab. split.
  - unfold startWatchingIfNeeded.
    destruct (negb (useConfigFile node) || negb (watchFile node)); [auto |].
    unfold table_matches_watchers, counts_positive in *.
    destruct (ensureJsonExt _); [| auto].
    destruct (resolveUnderUserDir _) as [abs | e]; [| auto].
    destruct (watchers ws !! abs) as [count |] eqn:Hc.
    + split.
      * intros b c. cbn [watchers]. rewrite lookup_insert. case_decide.
        -- intros [= <-]. specialize (Hpos abs count Hc). lia.
        -- apply Hpos.
      * intros b. cbn [watchers wlog]. rewrite is_Some_insert_iff, <- Htab.
        split; [intros [<- | Hb]; eauto | now right].
    + destruct (canWatch abs); [| auto]. split.
      * intros b c. cbn [watchers]. rewrite lookup_insert. case_decide.
        -- intros [= <-]. lia.
        -- apply Hpos.
      * intros b. cbn [watchers wlog is_open]. rewrite is_Some_insert_iff, orb_true_iff,
          String.eqb_eq, <- Htab. reflexivity.
  - unfold stopWatching.
    destruct (negb (useConfigFile node) || String.eqb (configPath node) ""); [auto |].
    unfold table_matches_watchers, counts_positive in *.
    destruct (resolveUnderUserDir _) as [abs | e]; [| auto].
    destruct (watchers ws !! abs) as [count |] eqn:Hc; [| auto].
    destruct (Z.leb_spec (count - 1) 0) as [Hle | Hgt].
    + split.
      * intros b c. cbn [watchers]. rewrite lookup_delete. case_decide; [discriminate |].
        apply Hpos.
      * intros b. cbn [watchers wlog is_open]. rewrite andb_true_iff, negb_true_iff, <- Htab.
        rewrite lookup_delete. case_decide as Hd.
        -- subst b. rewrite String.eqb_refl. split; [intros [? [=]] | intros [[=] _]].
        -- destruct (String.eqb_spec abs b); [contradiction | tauto].
    + split.
      * intros b c. cbn [watchers]. rewrite lookup_insert. case_decide.
        -- intros [= <-]. lia.
        -- apply Hpos.
      * intros b. cbn [watchers wlog]. rewrite is_Some_insert_iff, <- Htab.
        split; [intros [<- | Hb]; eauto | now right].
Qed.

(** X18.  A node that watches its configuration file (the path ends with
    [.json] and resolves, and the file is already watched or can be
    watched) gives back what it took: after [startWatchingIfNeeded] and then
    [stopWatching] the table of watchers is as it was. *)
Theorem start_then_stop_restores_the_table (node : NodeFile) (ws : wstate) (abs : string) :
  counts_positive ws ->
  useConfigFile node = true -> watchFile node = true ->
  ensureJsonExt (VStr (configPath node)) = Ok tt ->
  resolveUnderUserDir (configPath node) = Ok abs ->
  is_Some (watchers ws !! abs) \/ canWatch abs = true ->
  watchers (stopWatching resolveUnderUserDir node
              (startWatchingIfNeeded resolveUnderUserDir canWatch node ws))
  = watchers ws.
Proof.
  intros Hpos Huse Hwatch Hext Hres Hcan.
  assert (Hpath : String.eqb (configPath node) "" = false).
  { destruct (String.eqb_spec (configPath node) "") as [He | ?]; [| reflexivity].
    rewrite He in Hext. discriminate Hext. }
  unfold startWatchingIfNeeded, stopWatching.
  rewrite Huse, Hwatch, Hext, Hres, Hpath. cbn [negb orb].
  destruct (watchers ws !! abs) as [count |] eqn:Hc.
  - cbn [watchers]. rewrite lookup_insert_eq.
    specialize (Hpos abs count Hc).
    destruct (Z.leb_spec (count + 1 - 1) 0) as [Hle | Hgt]; [lia |].
    cbn [watchers]. rewrite insert_insert_eq.
    replace (count + 1 - 1)%Z with count by lia. now apply insert_id.
  - destruct Hcan as [[? [=]] | ->]. cbn [watchers]. rewrite lookup_insert_eq.
    cbn [Z.leb Z.sub Z.add Z.opp Z.pos_sub Z.compare watchers].
    rewrite delete_insert_eq. now apply delete_id.
Qed.

End ConfigFileFacts.

Lemma sample_counts_positive : counts_positive SampleFiles.watching.
Proof.
  intros abs c. unfold SampleFiles.watching. cbn [ConfigFile.watchers].
  rewrite lookup_singleton. case_decide; [intros [= <-]; lia | discriminate].
Qed.

Lemma sample_table_matches : table_matches_watchers SampleFiles.watching.
Proof.
  intros abs. unfold SampleFiles.watching. cbn [ConfigFile.watchers ConfigFile.wlog is_open].
  rewrite lookup_singleton, orb_false_r. case_decide as Hd.
  - subst abs. split; [reflexivity | eauto].
  - split; [intros [? [=]] | intros ?%String.eqb_eq; contradiction].
Qed.

Lemma watchers_table_is_sound_witness :
  (counts_positive (ConfigFile.startWatchingIfNeeded SampleFiles.resolve
                      SampleFiles.exists_on_disk SampleFiles.node SampleFiles.watching)
   /\ table_matches_watchers (ConfigFile.startWatchingIfNeeded SampleFiles.resolve
                      SampleFiles.exists_on_disk SampleFiles.node SampleFiles.watching))
  /\ (counts_positive (ConfigFile.stopWatching SampleFiles.resolve SampleFiles.node
                         SampleFiles.watching)
      /\ table_matches_watchers (ConfigFile.stopWatching SampleFiles.resolve SampleFiles.node
                         SampleFiles.watching)).
Proof.
  apply (watchers_table_is_sound SampleFiles.resolve SampleFiles.exists_on_disk
           SampleFiles.node SampleFiles.watching).
  - exact sample_counts_positive.
  - exact sample_table_matches.
Defined.

Lemma start_then_stop_restores_the_table_witness :
  ConfigFile.watchers
    (ConfigFile.stopWatching SampleFiles.resolve SampleFiles.node
       (ConfigFile.startWatchingIfNeeded SampleFiles.resolve SampleFiles.exists_on_disk
          SampleFiles.node SampleFiles.watching))
  = ConfigFile.watchers SampleFiles.watching.
Proof.
  apply (start_then_stop_restores_the_table SampleFiles.resolve SampleFiles.exists_on_disk
           SampleFiles.node SampleFiles.watching "/data/cfg.json").
  - exact sample_counts_positive.
  - reflexivity.
  - reflexivity.
  - reflexivity.
  - reflexivity.
  - right. reflexivity.
Defined.

(** ** The rows returned to the flow *)

Section ReturnRowsFacts.
Context `{Runtime}.
Variable world : list (event * Res value) -> event -> Res value.
Import Handler Keys.

Lemma mapM_paired {A B C} (f : A -> Res B) (h : A -> B -> C) (l : list A) : forall ys,
  Util.mapM f l = Ok ys ->
  exists out,
    Util.mapM (fun x => let? y := f x in Ok (h x y)) l = Ok out
    /\ length out = length l
    /\ forall i x, l !! i = Some x -> exists y, f x = Ok y /\ out !! i = Some (h x y).
Proof.
  induction l as [| a l IH]; intros ys Hys.
  - exists []. repeat split. intros i x. rewrite lookup_nil. discriminate.
  - cbn [Util.mapM] in Hys |- *.
    destruct (f a) as [b | e] eqn:Hfa; [| discriminate Hys].
    destruct (Util.mapM f l) as [bs | e]; [| discriminate Hys].
    destruct (IH bs eq_refl) as (out & -> & Hlen & Hat).
    exists (h a b :: out). split; [reflexivity |]. split; [cbn; now rewrite Hlen |].
    intros [| i] x; cbn.
    + intros [= <-]. eauto.
    + apply Hat.
Qed.

(** X19.  The rows returned for a group.  With [returnRows] switched on and
    a KeySpec of the group by columns, one batch of selections is made for
    the keys of the mapped rows and ONE value is assigned: an array with
    one entry per mapped row, in the order of the rows, each carrying the
    mapped row as [data] and as [id] what was selected for the key of the
    row ([undefined] when nothing was).  Without such a KeySpec nothing is
    selected or assigned: the group gets a warning. *)
Theorem returnRows_one_entry_per_row (g : Group) (alias : string) (mapped : list value)
    (st : state) :
  (String.eqb (from_option rr_mode "none" (returnRows g)) ""
   || String.eqb (from_option rr_mode "none" (returnRows g)) "none") = false ->
  (forall ks2 keys map st1,
     keySpecs st !! alias = Some ks2 ->
     byColumnsWithColumns ks2 = true ->
     Util.mapM (fun r => keyOfMappedRow r (Some ks2)) mapped = Ok keys ->
     selectIdsByKeys world g ks2 keys st = (Ok map, st1) ->
     exists outRows,
       projectRows world g alias mapped st
       = assignTypedPath world
           (or_default (from_option rr_pathType "" (returnRows g)) "msg")
           (or_default (from_option rr_path "" (returnRows g)) ("sqlite." +:+ alias +:+ ".rows"))
           (VArr outRows) st1
       /\ length outRows = length mapped
       /\ forall i r, mapped !! i = Some r ->
            exists k, keyOfMappedRow r (Some ks2) = Ok k
                      /\ outRows !! i = Some (VObj [("action", VStr "affected");
                                                    ("id", default VUndefined (map !! k));
                                                    ("data", r)]))
  /\ (from_option byColumnsWithColumns false (keySpecs st !! alias) = false ->
      projectRows world g alias mapped st
      = (Ok tt, push (EvWarn ("returnRows requires a byColumns KeySpec for group "
                              +:+ Util.dq +:+ alias +:+ Util.dq +:+ " — skipped"))
                     (Ok VUndefined) st)).
Proof.
  intros Hmode. split.
  - intros ks2 keys map st1 Hks Hby Hkeys Hsel.
    destruct (mapM_paired (fun r => keyOfMappedRow r (Some ks2))
                (fun r k => VObj [("action", VStr "affected");
                                  ("id", default VUndefined (map !! k));
                                  ("data", r)]) mapped keys Hkeys)
      as (outRows & Hout & Hlen & Hat).
    exists outRows. split; [| split; assumption].
    unfold projectRows. rewrite Hmode.
    unfold bind at 1, gets. rewrite Hks, Hby.
    unfold bind at 1, lift. rewrite Hkeys.
    unfold bind at 1. rewrite Hsel.
    unfold bind at 1. rewrite Hout. reflexivity.
  - intros Hno. unfold projectRows. rewrite Hmode.
    unfold bind at 1, gets.
    destruct (keySpecs st !! alias) as [ks2 |]; cbn [from_option] in Hno.
    + rewrite Hno. reflexivity.
    + reflexivity.
Qed.

End ReturnRowsFacts.

Lemma returnRows_one_entry_per_row_witness :
  exists outRows st1,
    Handler.projectRows Sample.world SampleRows.group "Departments" SampleRows.mapped
      SampleRows.after_chunks
    = Handler.assignTypedPath Sample.world "msg" "sqlite.Departments.rows" (VArr outRows) st1
    /\ length outRows = 2
    /\ outRows !! 1 = Some (VObj [("action", VStr "affected"); ("id", VStr "#ENG");
                                  ("data", VObj [("code", VStr "ENG")])]).
Proof.
  destruct (Handler.selectIdsByKeys Sample.world SampleRows.group Sample.sampleSpec
              ["HR"; "ENG"] SampleRows.after_chunks) as [[m | e] st1] eqn:Hsel.
  - destruct (proj1 (returnRows_one_entry_per_row Sample.world SampleRows.group "Departments"
                       SampleRows.mapped SampleRows.after_chunks eq_refl)
                Sample.sampleSpec ["HR"; "ENG"] m st1 eq_refl eq_refl eq_refl Hsel)
      as (outRows & Heq & Hlen & Hat).
    exists outRows, st1. split; [exact Heq |]. split; [exact Hlen |].
    destruct (Hat 1 (VObj [("code", VStr "ENG")]) eq_refl) as (k & Hk & ->).
    vm_compute in Hk. injection Hk as <-.
    vm_compute in Hsel. injection Hsel as <- _. reflexivity.
  - exfalso. vm_compute in Hsel. discriminate Hsel.
Defined.

Lemma ensureJsonExt_accepts_witness :
  ConfigFile.ensureJsonExt (VStr "Links.JSON") = Ok tt.
Proof.
  apply (proj1 (ensureJsonExt_accepts (VStr "Links.JSON"))).
  exists "Links.JSON", "links". split; reflexivity.
Defined.

Lemma uniq_distinct_witness :
  NoDup (Handler.uniq ["HR"; "ENG"; "HR"]) /\ "ENG" ∈ Handler.uniq ["HR"; "ENG"; "HR"].
Proof.
  split.
  - exact (proj1 (uniq_distinct ["HR"; "ENG"; "HR"])).
  - apply (proj2 (uniq_distinct ["HR"; "ENG"; "HR"])).
    apply elem_of_cons. right. apply elem_of_cons. now left.
Defined.
